(** * Clipper front end: a shallow embedding of [App.jsx]

    The repository's client is one React component, [App], kept in two
    revisions ([frontend/src/App.jsx], and a later one that adds the list of
    recent uploads).  This development embeds the pure parts of the component
    (base-URL normalisation, the progress renderer, the upload percentage,
    the clip gallery) as functions, and its stateful part (hooks, the polling
    interval, the requests it sends) as a step function over an explicit
    world.

    Conventions of the embedding:
    - a JavaScript string is a [string]; every literal the component compares
      against is ASCII, so code units and bytes coincide where it matters;
    - [undefined]/[null] is [None];
    - a JavaScript number that the component computes with is an exact
      integer ([Z], [N]) or an exact rational ([Q]) next to the non-finite
      values; rounding of doubles is not modelled;
    - an array held in React state is a location in a store, because the
      component shares arrays between the upload list and the gallery. *)

From stdpp Require Import gmap strings list pretty sorting.
From Stdlib Require Import Ascii QArith Qround Qminmax Lqa.

Local Open Scope Z_scope.

(** ** JavaScript primitives used by the component *)

Module JS.

(** [ToBoolean] on a string: only the empty string is falsy. *)
Definition truthy (s : string) : bool :=
  match s with
  | EmptyString => false
  | String _ _ => true
  end.

(** [x || d] where [x] is a possibly missing string. *)
Definition or_else (x : option string) (d : string) : string :=
  match x with
  | Some s => if truthy s then s else d
  | None => d
  end.

(** [!x] where [x] is a possibly missing string. *)
Definition falsy (x : option string) : bool :=
  match x with
  | Some s => negb (truthy s)
  | None => true
  end.

(** [s.startsWith(p)]. *)
Definition startsWith (s p : string) : bool := String.prefix p s.

(** [s.includes(sub)]: [sub] occurs at some position of [s]. *)
Fixpoint includes (s sub : string) : bool :=
  String.prefix sub s ||
  match s with
  | EmptyString => false
  | String _ s' => includes s' sub
  end.

(** [s.split(sep)] for a non-empty separator: left to right, cutting at
    every occurrence that does not overlap the previous one.  [skip]
    counts the characters of a matched separator still to be dropped and
    [cur] holds the piece read so far. *)
Fixpoint split_go (sep : string) (skip : nat) (cur : string) (s : string)
  : list string :=
  match s with
  | EmptyString => [cur]
  | String c s' =>
      match skip with
      | S k => split_go sep k cur s'
      | O =>
          if String.prefix sep s
          then cur :: split_go sep (String.length sep - 1) "" s'
          else split_go sep O (cur +:+ String c "") s'
      end
  end.

(** With the empty separator [split] returns the characters one by one. *)
Definition split (s sep : string) : list string :=
  match sep with
  | EmptyString => (λ c, String c EmptyString) <$> String.list_ascii_of_string s
  | String _ _ => split_go sep O "" s
  end.

(** *** Numbers

    The doubles of the component are integers and quotients of integers;
    they are kept exact.  Signed zero is not distinguished. *)
Inductive number :=
  | NaN
  | PosInf
  | NegInf
  | Fin (q : Q).

Definition of_Z (z : Z) : number := Fin (inject_Z z).

(** The sign of a non-NaN number: [Lt] negative, [Eq] zero, [Gt] positive. *)
Definition sign (x : number) : comparison :=
  match x with
  | NaN => Eq
  | PosInf => Gt
  | NegInf => Lt
  | Fin q => (q ?= 0)%Q
  end.

Definition signed_inf (s1 s2 : comparison) : number :=
  match s1, s2 with
  | Eq, _ | _, Eq => NaN
  | Gt, Gt | Lt, Lt => PosInf
  | _, _ => NegInf
  end.

(** [x / y]. *)
Definition div (x y : number) : number :=
  match x, y with
  | NaN, _ | _, NaN => NaN
  | Fin a, Fin b =>
      match sign y with
      | Eq => signed_inf (sign x) Gt
      | _ => Fin (a / b)%Q
      end
  | Fin _, _ => Fin 0
  | _, Fin _ => signed_inf (sign x) (match sign y with Eq => Gt | s => s end)
  | _, _ => NaN
  end.

(** [x * y]. *)
Definition mul (x y : number) : number :=
  match x, y with
  | NaN, _ | _, NaN => NaN
  | Fin a, Fin b => Fin (a * b)%Q
  | _, _ => signed_inf (sign x) (sign y)
  end.

(** [Math.max(x, y)]. *)
Definition Math_max (x y : number) : number :=
  match x, y with
  | NaN, _ | _, NaN => NaN
  | PosInf, _ | _, PosInf => PosInf
  | NegInf, z | z, NegInf => z
  | Fin a, Fin b => if Qle_bool a b then Fin b else Fin a
  end.

(** The values [Math.round] can return. *)
Inductive integral :=
  | INaN
  | IInf (negative : bool)
  | IInt (z : Z).

(** [Math.round(x)]: the nearest integer, a tie going up. *)
Definition Math_round (x : number) : integral :=
  match x with
  | NaN => INaN
  | PosInf => IInf false
  | NegInf => IInf true
  | Fin q => IInt (Qfloor (q + (1 # 2))%Q)
  end.

(** [`${i}`] for an integral number (below 1e21, where JavaScript switches
    to exponent notation). *)
Definition show_integral (i : integral) : string :=
  match i with
  | INaN => "NaN"
  | IInf false => "Infinity"
  | IInf true => "-Infinity"
  | IInt z => pretty z
  end.

(** [`${x}`] where the embedding knows the digits: integers and the
    non-finite values.  The shortest-round-trip digits of a fractional
    double are not modelled. *)
Definition to_string (x : number) : option string :=
  match x with
  | NaN => Some "NaN"
  | PosInf => Some "Infinity"
  | NegInf => Some "-Infinity"
  | Fin q => if Qeq_bool q (inject_Z (Qfloor q)) then Some (pretty (Qfloor q)) else None
  end.

(** *** [parseInt] *)

(** The value of a character as a digit, for any radix up to 36. *)
Definition digit_val (c : ascii) : option N :=
  let n := N_of_ascii c in
  if ((48 <=? n) && (n <=? 57))%N then Some (n - 48)%N
  else if ((97 <=? n) && (n <=? 122))%N then Some (n - 87)%N
  else if ((65 <=? n) && (n <=? 90))%N then Some (n - 55)%N
  else None.

(** The ASCII part of [StrWhiteSpaceChar]: TAB, LF, VT, FF, CR, SP. *)
Definition is_space (c : ascii) : bool :=
  let n := N_of_ascii c in
  (((9 <=? n) && (n <=? 13)) || (n =? 32))%N.

Fixpoint skip_spaces (s : string) : string :=
  match s with
  | String c s' => if is_space c then skip_spaces s' else s
  | EmptyString => s
  end.

(** The longest prefix of digits below [radix], accumulated from the left;
    [acc] is [None] until a digit has been read. *)
Fixpoint parse_digits (radix : N) (acc : option N) (s : string) : option N :=
  match s with
  | EmptyString => acc
  | String c s' =>
      match digit_val c with
      | Some d =>
          if (d <? radix)%N
          then parse_digits radix (Some (default 0 acc * radix + d)%N) s'
          else acc
      | None => acc
      end
  end.

Definition strip_sign (s : string) : bool * string :=
  match s with
  | String "-" s' => (true, s')
  | String "+" s' => (false, s')
  | _ => (false, s)
  end.

Definition strip_hex (s : string) : N * string :=
  match s with
  | String "0" (String "x" s') | String "0" (String "X" s') => (16%N, s')
  | _ => (10%N, s)
  end.

(** [parseInt(s)] with no radix argument. *)
Definition parseInt_string (s : string) : number :=
  let '(negative, s1) := strip_sign (skip_spaces s) in
  let '(radix, s2) := strip_hex s1 in
  match parse_digits radix None s2 with
  | None => NaN
  | Some n => of_Z (if negative then - Z.of_N n else Z.of_N n)
  end.

(** [parseInt(x)] where [x] may be [undefined]: [ToString(undefined)] has
    no digits. *)
Definition parseInt (x : option string) : number :=
  match x with
  | Some s => parseInt_string s
  | None => NaN
  end.

(** *** [encodeURIComponent]

    Every byte outside the unreserved set [A-Z a-z 0-9 - _ . ! ~ * ' ( )]
    is written [%XX]; on a well-formed string the bytes are those of its
    UTF-8 encoding, which is what JavaScript escapes. *)
Definition unreserved (c : ascii) : bool :=
  let n := N_of_ascii c in
  (((48 <=? n) && (n <=? 57)) || ((65 <=? n) && (n <=? 90))
   || ((97 <=? n) && (n <=? 122))
   || (n =? 45) || (n =? 95) || (n =? 46) || (n =? 33) || (n =? 126)
   || (n =? 42) || (n =? 39) || (n =? 40) || (n =? 41))%N.

Definition hex_char (d : N) : ascii :=
  if (d <? 10)%N then ascii_of_N (48 + d) else ascii_of_N (55 + d).

Fixpoint encodeURIComponent (s : string) : string :=
  match s with
  | EmptyString => EmptyString
  | String c s' =>
      if unreserved c then String c (encodeURIComponent s')
      else
        let n := N_of_ascii c in
        String "%" (String (hex_char (n / 16)) (String (hex_char (n mod 16))
          (encodeURIComponent s')))
  end.

(** *** [Array.prototype.sort]

    [cmp x y] is the number the comparator returns: negative when [x]
    goes first, positive when [y] goes first, zero to keep their order.
    The standard asks for a stable sort; for a consistent comparator the
    result does not depend on the algorithm, and straight insertion stands
    for it. *)
Fixpoint insert_by {A} (cmp : A → A → Q) (x : A) (l : list A) : list A :=
  match l with
  | [] => [x]
  | y :: l' => if Qle_bool (cmp x y) 0 then x :: l else y :: insert_by cmp x l'
  end.

Definition sort {A} (cmp : A → A → Q) (l : list A) : list A :=
  foldr (insert_by cmp) [] l.

(** *** [String.prototype.trim]

    Strips white space and line terminators from both ends; as for
    [parseInt], the ASCII ones are modelled. *)
Fixpoint trimEnd (s : string) : string :=
  match s with
  | EmptyString => EmptyString
  | String c s' =>
      match trimEnd s' with
      | EmptyString => if is_space c then EmptyString else String c EmptyString
      | t => String c t
      end
  end.

Definition trim (s : string) : string := trimEnd (skip_spaces s).

End JS.

(** ** The API base URL (module top level of [App.jsx]) *)

Definition default_base : string := "http://localhost:8000".

(** [let API_BASE = import.meta.env.VITE_API_BASE_URL || 'http://localhost:8000';
     if (API_BASE && !API_BASE.startsWith('http')) API_BASE = `https://${API_BASE}`;]
    The argument is the environment entry, [None] when it is not set. *)
Definition API_BASE (env : option string) : string :=
  let b := JS.or_else env default_base in
  if JS.truthy b && negb (JS.startsWith b "http") then "https://" +:+ b else b.

(** ** The progress panel (shown while [status] is ['uploading'] or
    ['processing']) *)

(** The two revisions of the component differ in the label of the analysis
    stage and in the recent-uploads list. *)
Inductive Revision :=
  | Frontend
  | WithUploads.

(** The [width] style of the bar: a string taken from the progress text, or
    the template [`${x}%`] around a computed number. *)
Inductive Width :=
  | WidthStr (s : string)
  | WidthPct (x : JS.number).

Definition width_string (w : Width) : option string :=
  match w with
  | WidthStr s => Some s
  | WidthPct x => (λ d, d +:+ "%") <$> JS.to_string x
  end.

(** What the round badge shows: the stage-local measure, or a bare spinner. *)
Inductive Spinner :=
  | SpinnerText (s : string)
  | SpinnerBare.

Inductive ProgressDetail :=
  | Bar (stage : string) (measure : option string) (width : Width)
  | Pulse (left_label right_label : string)
  | CurrentStep (text : string).

Record ProgressPanel := {
  spinner : Spinner;
  heading : string;
  detail : ProgressDetail;
}.

(** [progress.startsWith('transcribing') || progress.startsWith('rendering')
     || progress.startsWith('uploading')] *)
Definition has_measure (progress : string) : bool :=
  JS.startsWith progress "transcribing"
  || JS.startsWith progress "rendering"
  || JS.startsWith progress "uploading".

(** The text inside the round badge:
    [const val = progress.split(': ')[1];
     if (!val) return '...'; if (val === 'preparing...') return '5%'; return val;] *)
Definition spinner_text (progress : string) : string :=
  let val := JS.split progress ": " !! 1%nat in
  if JS.falsy val then "..."
  else if decide (val = Some "preparing...") then "5%"
  else default "" val.

(** The [width] of the bar:
    [const val = progress.split(': ')[1];
     if (!val) return '5%'; if (val === 'preparing...') return '5%';
     if (progress.startsWith('rendering')) {
       const parts = val.split('/') || [0, 1];
       return `${Math.max(5, (parseInt(parts[0]) / parseInt(parts[1])) * 100)}%`; }
     return val.includes('%') ? val : `${val}%`;]
    An array is truthy, so the alternative [[0, 1]] is never taken. *)
Definition bar_width (progress : string) : Width :=
  let val := JS.split progress ": " !! 1%nat in
  if JS.falsy val then WidthStr "5%"
  else if decide (val = Some "preparing...") then WidthStr "5%"
  else
    let v := default "" val in
    if JS.startsWith progress "rendering" then
      let parts := JS.split v "/" in
      WidthPct (JS.Math_max (JS.of_Z 5)
                  (JS.mul (JS.div (JS.parseInt (parts !! 0%nat))
                                  (JS.parseInt (parts !! 1%nat)))
                          (JS.of_Z 100)))
    else if JS.includes v "%" then WidthStr v
    else WidthStr (v +:+ "%").

(** The panel: the badge, the heading
    [status === 'uploading' ? 'Uploading Video...' : 'Processing...'], and
    below it the determinate bar with [progress.split(':')[0]] and
    [progress.split(': ')[1]] as labels, or the pulsing bar for a text that
    starts with ['analyzing'], or the line ["Current Step: {progress}"]. *)
Definition render_progress (rev : Revision) (status progress : string)
  : ProgressPanel :=
  {| spinner :=
       if has_measure progress then SpinnerText (spinner_text progress)
       else SpinnerBare;
     heading :=
       if decide (status = "uploading") then "Uploading Video..."
       else "Processing...";
     detail :=
       if has_measure progress then
         Bar (default "" (JS.split progress ":" !! 0%nat))
             (JS.split progress ": " !! 1%nat)
             (bar_width progress)
       else if JS.startsWith progress "analyzing" then
         Pulse (match rev with
                | Frontend => progress
                | WithUploads => "Analyzing Transcript"
                end)
               "AI is finding clips..."
       else CurrentStep ("Current Step: " +:+ progress) |}.

(** ** The upload percentage ([onUploadProgress] in [startUpload]) *)

(** [const percentCompleted = Math.round((progressEvent.loaded * 100) / progressEvent.total);
     setProgress(`uploading: ${percentCompleted}%`)] *)
Definition upload_progress (loaded total : JS.number) : string :=
  let percentCompleted :=
    JS.Math_round (JS.div (JS.mul loaded (JS.of_Z 100)) total) in
  "uploading: " +:+ JS.show_integral percentCompleted +:+ "%".

(** ** Clips, uploads and the store of arrays *)

Module Clip.
(** One entry of [job.clips] or [upload.clips]; a field the payload lacks
    (or sets to [null]) is [None].  A JSON number is finite, so a score is
    a rational. *)
Record t := {
  path : string;
  title : option string;
  score : option Q;
  transcript_text : option string;
}.
End Clip.

Module Upload.
(** One entry of [/api/uploads]; [C] is how the clip array is held: by
    value in the payload, by location once the component keeps it. *)
Record t (C : Type) := {
  path : string;
  filename : string;
  created_at : Z;
  thumbnail : option string;
  has_transcript : bool;
  clips : option C;
}.
Arguments path {C}.
Arguments filename {C}.
Arguments created_at {C}.
Arguments thumbnail {C}.
Arguments has_transcript {C}.
Arguments clips {C}.
End Upload.

(** Arrays of clips live in a store; React state and upload entries hold
    locations, so two holders of one array see each other's writes. *)
Abbreviation store := (gmap nat (list Clip.t)).

Definition alloc (a : list Clip.t) (h : store) : nat * store :=
  let l := fresh (dom h) in (l, <[l := a]> h).

(** [[...a]]: a new array with the elements of the one at [l]. *)
Definition spread (l : nat) (h : store) : option (nat * store) :=
  a ← h !! l; Some (alloc a h).

(** [a.sort(cmp)]: sorts the array at [l] in place. *)
Definition sort_in_place (cmp : Clip.t → Clip.t → Q) (l : nat) (h : store) : store :=
  alter (JS.sort cmp) l h.

(** ** The gallery (shown while [status] is ['done']) *)

Inductive BadgeClass :=
  | Emerald
  | Yellow
  | Slate.

(** [clip.score >= 80 ? emerald : clip.score >= 60 ? yellow : slate] *)
Definition badge_class (score : Q) : BadgeClass :=
  if Qle_bool 80 score then Emerald
  else if Qle_bool 60 score then Yellow
  else Slate.

Record Card := {
  video_src : string;
  caption : string;
  badge : option (BadgeClass * Q);
  excerpt : option string;
  download_href : string;
}.

Definition static_url (base file : string) : string :=
  base +:+ "/static/" +:+ file.

Definition card (base : string) (idx : nat) (clip : Clip.t) : Card :=
  {| video_src := static_url base (Clip.path clip);
     caption := JS.or_else (Clip.title clip) ("Clip " +:+ pretty (idx + 1)%nat);
     badge := (λ s, (badge_class s, s)) <$> Clip.score clip;
     excerpt :=
       if JS.falsy (Clip.transcript_text clip) then None
       else Clip.transcript_text clip;
     download_href := static_url base (Clip.path clip) |}.

(** [clip.score || 0] *)
Definition score_or_zero (c : Clip.t) : Q := default 0%Q (Clip.score c).

(** [(a, b) => (b.score || 0) - (a.score || 0)] *)
Definition by_score (a b : Clip.t) : Q := (score_or_zero b - score_or_zero a)%Q.

(** [[...clips].sort(by_score).map((clip, idx) => card)]; returns the
    location of the sorted copy, the cards, and the store after rendering.
    [None] is the render throwing because [clips] is not an array. *)
Definition render_gallery (base : string) (clips : option nat) (h : store)
  : option (nat * list Card * store) :=
  l ← clips;
  '(l', h1) ← spread l h;
  let h2 := sort_in_place by_score l' h1 in
  shown ← h2 !! l';
  Some (l', imap (card base) shown, h2).

(** ** The component's state, its effects and its event handlers *)

(** The [useState] cells of [App].  [apiKey] is [geminiKey] in the first
    revision, which also has [openaiKey]. *)
Record State := {
  file : option string;
  status : string;
  jobId : option string;
  progress : string;
  clips : option nat;
  error : option string;
  uploads : list (Upload.t nat);
  apiKey : string;
  openaiKey : string;
}.

Definition setFile (v : option string) (s : State) : State :=
  {| file := v; status := status s; jobId := jobId s; progress := progress s;
     clips := clips s; error := error s; uploads := uploads s;
     apiKey := apiKey s; openaiKey := openaiKey s |}.

Definition setStatus (v : string) (s : State) : State :=
  {| file := file s; status := v; jobId := jobId s; progress := progress s;
     clips := clips s; error := error s; uploads := uploads s;
     apiKey := apiKey s; openaiKey := openaiKey s |}.

Definition setJobId (v : option string) (s : State) : State :=
  {| file := file s; status := status s; jobId := v; progress := progress s;
     clips := clips s; error := error s; uploads := uploads s;
     apiKey := apiKey s; openaiKey := openaiKey s |}.

Definition setProgress (v : string) (s : State) : State :=
  {| file := file s; status := status s; jobId := jobId s; progress := v;
     clips := clips s; error := error s; uploads := uploads s;
     apiKey := apiKey s; openaiKey := openaiKey s |}.

Definition setClips (v : option nat) (s : State) : State :=
  {| file := file s; status := status s; jobId := jobId s; progress := progress s;
     clips := v; error := error s; uploads := uploads s;
     apiKey := apiKey s; openaiKey := openaiKey s |}.

Definition setError (v : option string) (s : State) : State :=
  {| file := file s; status := status s; jobId := jobId s; progress := progress s;
     clips := clips s; error := v; uploads := uploads s;
     apiKey := apiKey s; openaiKey := openaiKey s |}.

Definition setUploads (v : list (Upload.t nat)) (s : State) : State :=
  {| file := file s; status := status s; jobId := jobId s; progress := progress s;
     clips := clips s; error := error s; uploads := v;
     apiKey := apiKey s; openaiKey := openaiKey s |}.

(** A request handed to [axios]; a [POST] may carry the chosen file as
    multipart form data. *)
Inductive Request :=
  | GET (url : string)
  | POST (url : string) (form_file : option string).

(** A request whose promise the component is awaiting. *)
Inductive Call :=
  | CallUploads
  | CallUpload
  | CallProcess.

Global Instance Call_eq_dec : EqDecision Call.
Proof. solve_decision. Defined.

(** The handle of [setInterval(…, 2000)] with the [jobId] its callback
    closed over. *)
Record Interval := {
  polled_job : string;
  period : Z;
}.

(** The job object of [GET /api/jobs/<id>]. *)
Record Job := {
  job_status : string;
  job_clips : option (list Clip.t);
  job_error : option string;
}.

Record World := {
  st : State;
  heap : store;
  timer : option Interval;
  awaiting : list Call;
  sent : list Request;
}.

Definition on_state (f : State → State) (w : World) : World :=
  {| st := f (st w); heap := heap w; timer := timer w;
     awaiting := awaiting w; sent := sent w |}.

Definition with_heap (h : store) (w : World) : World :=
  {| st := st w; heap := h; timer := timer w;
     awaiting := awaiting w; sent := sent w |}.

Definition with_timer (t : option Interval) (w : World) : World :=
  {| st := st w; heap := heap w; timer := t;
     awaiting := awaiting w; sent := sent w |}.

(** Issue a request and, for an awaited call, remember the pending promise. *)
Definition send (r : Request) (c : option Call) (w : World) : World :=
  {| st := st w; heap := heap w; timer := timer w;
     awaiting := awaiting w ++ option_list c; sent := sent w ++ [r] |}.

Fixpoint remove_first (c : Call) (l : list Call) : list Call :=
  match l with
  | [] => []
  | x :: l' => if decide (x = c) then l' else x :: remove_first c l'
  end.

(** The promise of call [c] settles. *)
Definition settle (c : Call) (w : World) : World :=
  {| st := st w; heap := heap w; timer := timer w;
     awaiting := remove_first c (awaiting w); sent := sent w |}.

Definition uploads_url (base : string) : string := base +:+ "/api/uploads".

Definition upload_url (base : string) : string := base +:+ "/api/upload".

Definition job_url (base id : string) : string := base +:+ "/api/jobs/" +:+ id.

(** [`${API_BASE}/api/process?path=${encodeURIComponent(path)}&gemini_api_key=${apiKey}`],
    followed in the first revision by [`&openai_api_key=${openaiKey}`]. *)
Definition process_url (rev : Revision) (base : string) (s : State) (path : string)
  : string :=
  base +:+ "/api/process?path=" +:+ JS.encodeURIComponent path
       +:+ "&gemini_api_key=" +:+ apiKey s
       +:+ match rev with
           | Frontend => "&openai_api_key=" +:+ openaiKey s
           | WithUploads => ""
           end.

(** [status === 'processing' && jobId]: the interval the polling effect
    sets up, if any. *)
Definition poll_wanted (s : State) : option Interval :=
  match jobId s with
  | Some id =>
      if decide (status s = "processing") then
        if JS.truthy id then Some {| polled_job := id; period := 2000 |}
        else None
      else None
  | None => None
  end.

(** The effects React runs after a handler has changed state; [old] is the
    state of the previous render.
    - [useEffect(() => { fetchUploads() }, [status])] (second revision);
    - [useEffect(() => { … setInterval … return () => clearInterval(interval) },
       [status, jobId])]: the cleanup clears the previous interval, then the
      body sets a new one when [poll_wanted]. *)
Definition commit (rev : Revision) (base : string) (old : State) (w : World)
  : World :=
  let w1 :=
    match rev with
    | WithUploads =>
        if decide (status old = status (st w)) then w
        else send (GET (uploads_url base)) (Some CallUploads) w
    | Frontend => w
    end in
  if decide (status old = status (st w) ∧ jobId old = jobId (st w)) then w1
  else with_timer (poll_wanted (st w)) w1.

(** Keep the arrays of an [/api/uploads] payload in the store. *)
Fixpoint intern (data : list (Upload.t (list Clip.t))) (h : store)
  : list (Upload.t nat) * store :=
  match data with
  | [] => ([], h)
  | u :: data' =>
      let '(c, h1) :=
        match Upload.clips u with
        | Some a => let '(l, h1) := alloc a h in (Some l, h1)
        | None => (None, h)
        end in
      let '(us, h2) := intern data' h1 in
      ({| Upload.path := Upload.path u; Upload.filename := Upload.filename u;
          Upload.created_at := Upload.created_at u;
          Upload.thumbnail := Upload.thumbnail u;
          Upload.has_transcript := Upload.has_transcript u;
          Upload.clips := c |} :: us, h2)
  end.

(** [upload.clips && upload.clips.length > 0]: the number of cached clips
    when the "View N Clips" button is rendered. *)
Definition cached_clips (h : store) (u : Upload.t nat) : option nat :=
  l ← Upload.clips u;
  a ← h !! l;
  if decide (0 < length a)%nat then Some (length a) else None.

(** What can happen to the mounted component.  A handler that awaits a
    request is split at the [await]: the event that starts it, and the event
    of the promise settling.  A poll is one event: the interval fires, the
    request is made and its outcome is handled. *)
Inductive Event :=
  | UploadsReplied (data : option (list (Upload.t (list Clip.t))))
  | FileChosen (name : string)
  | CancelFile
  | StartMagic
  | UploadProgress (loaded total : JS.number)
  | UploadReplied (r : string + string)
  | ProcessReplied (r : option string + string)
  | ViewClips (i : nat)
  | GenerateClips (i : nat)
  | PollTick (r : option Job)
  | TryAgain
  | ProcessNewVideo.

(** The [catch] of [startUpload] and [startProcessingExisting]. *)
Definition fail_with (message : string) (s : State) : State :=
  setStatus "error" (setError (Some message) s).

(** The body of the interval callback once the response is in. *)
Definition on_job (job : Job) (w : World) : World :=
  let w1 := on_state (setProgress (job_status job)) w in
  if decide (job_status job = "done") then
    let w2 :=
      match job_clips job with
      | Some a =>
          let '(l, h) := alloc a (heap w1) in
          on_state (setClips (Some l)) (with_heap h w1)
      | None => on_state (setClips None) w1
      end in
    with_timer None (on_state (setStatus "done") w2)
  else if decide (job_status job = "failed") then
    with_timer None
      (on_state (setStatus "error")
         (on_state (setError (Some (JS.or_else (job_error job) "Job failed"))) w1))
  else w1.

(** One event.  An event whose control is not rendered, whose promise is not
    pending or whose interval is not set leaves the world as it is. *)
Definition handle (rev : Revision) (base : string) (e : Event) (w : World)
  : World :=
  let s := st w in
  match e with
  | UploadsReplied data =>
      if decide (CallUploads ∈ awaiting w) then
        let w1 := settle CallUploads w in
        match data with
        | Some arr =>
            let '(us, h) := intern arr (heap w1) in
            on_state (setUploads us) (with_heap h w1)
        | None => w1
        end
      else w
  | FileChosen name =>
      if decide (status s = "idle") then on_state (setFile (Some name)) w else w
  | CancelFile =>
      if decide (status s = "idle") then
        match file s with
        | Some _ => on_state (setFile None) w
        | None => w
        end
      else w
  | StartMagic =>
      if decide (status s = "idle") then
        match file s with
        | Some f =>
            send (POST (upload_url base) (Some f)) (Some CallUpload)
              (on_state (setStatus "uploading") w)
        | None => w
        end
      else w
  | UploadProgress loaded total =>
      if decide (CallUpload ∈ awaiting w)
      then on_state (setProgress (upload_progress loaded total)) w
      else w
  | UploadReplied r =>
      if decide (CallUpload ∈ awaiting w) then
        let w1 := settle CallUpload w in
        match r with
        | inl filePath =>
            send (POST (process_url rev base s filePath) None) (Some CallProcess)
              (on_state (setStatus "processing") w1)
        | inr message => on_state (fail_with message) w1
        end
      else w
  | ProcessReplied r =>
      if decide (CallProcess ∈ awaiting w) then
        let w1 := settle CallProcess w in
        match r with
        | inl job_id => on_state (setJobId job_id) w1
        | inr message => on_state (fail_with message) w1
        end
      else w
  | ViewClips i =>
      match rev, uploads s !! i with
      | WithUploads, Some u =>
          if decide (status s = "idle") then
            match cached_clips (heap w) u with
            | Some _ =>
                on_state (setStatus "done") (on_state (setClips (Upload.clips u)) w)
            | None => w
            end
          else w
      | _, _ => w
      end
  | GenerateClips i =>
      match rev, uploads s !! i with
      | WithUploads, Some u =>
          if decide (status s = "idle") then
            send (POST (process_url rev base s (Upload.path u)) None)
              (Some CallProcess)
              (on_state (setStatus "processing") w)
          else w
      | _, _ => w
      end
  | PollTick r =>
      match timer w with
      | Some ivl =>
          let w1 := send (GET (job_url base (polled_job ivl))) None w in
          match r with
          | Some job => on_job job w1
          | None => w1
          end
      | None => w
      end
  | TryAgain =>
      if decide (status s = "error")
      then on_state (setError None) (on_state (setFile None)
             (on_state (setStatus "idle") w))
      else w
  | ProcessNewVideo =>
      if decide (status s = "done") then
        let '(l, h) := alloc [] (heap w) in
        on_state (setClips (Some l)) (on_state (setFile None)
          (on_state (setStatus "idle") (with_heap h w)))
      else w
  end.

(** A handler runs, React re-renders, the effects whose dependencies changed
    run. *)
Definition step (rev : Revision) (base : string) (w : World) (e : Event) : World :=
  commit rev base (st w) (handle rev base e w).

Definition run (rev : Revision) (base : string) (w : World) (es : list Event)
  : World :=
  foldl (step rev base) w es.

(** The component after its first render: the initial [useState] values
    (with the key read from local storage), an empty clip array, and the
    mount effects. *)
Definition mount (rev : Revision) (base : string) (storedKey storedOpenai : string)
  : World :=
  let '(l, h) := alloc [] ∅ in
  let s := {| file := None; status := "idle"; jobId := None;
              progress := "waiting"; clips := Some l; error := None;
              uploads := []; apiKey := storedKey; openaiKey := storedOpenai |} in
  let w := {| st := s; heap := h; timer := None; awaiting := []; sent := [] |} in
  match rev with
  | WithUploads => send (GET (uploads_url base)) (Some CallUploads) w
  | Frontend => w
  end.

(** ** What the component shows *)

Record UploadRow := {
  shown_name : string;
  thumb : option string;
  transcript_ready : bool;
  view_button : option string;
  process_button : string;
}.

Definition upload_row (base : string) (h : store) (u : Upload.t nat) : UploadRow :=
  {| shown_name := Upload.filename u;
     thumb :=
       if JS.falsy (Upload.thumbnail u) then None
       else static_url base <$> Upload.thumbnail u;
     transcript_ready := Upload.has_transcript u;
     view_button := (λ n, "View " +:+ pretty n +:+ " Clips") <$> cached_clips h u;
     process_button :=
       match cached_clips h u with
       | Some _ => "Regenerate"
       | None => "Generate Clips"
       end |}.

(** Exactly one block of the JSX is rendered for each [status]. *)
Inductive View :=
  | IdleView (chosen : option string) (rows : list UploadRow)
  | WorkingView (panel : ProgressPanel)
  | ErrorView (message : option string)
  | DoneView (cards : list Card)
  | Thrown
  | NoView.

(** Rendering allocates (the sorted copy of the clips), so the store is
    returned with the view. *)
Definition render (rev : Revision) (base : string) (w : World) : View * store :=
  let s := st w in
  if decide (status s = "idle") then
    (IdleView (file s)
       match rev with
       | WithUploads => upload_row base (heap w) <$> uploads s
       | Frontend => []
       end,
     heap w)
  else if decide (status s = "uploading" ∨ status s = "processing") then
    (WorkingView (render_progress rev (status s) (progress s)), heap w)
  else if decide (status s = "error") then (ErrorView (error s), heap w)
  else if decide (status s = "done") then
    match render_gallery base (clips s) (heap w) with
    | Some (_, cards, h) => (DoneView cards, h)
    | None => (Thrown, heap w)
    end
  else (NoView, heap w).

(** ** The pipeline executor (back end) *)

Module Pipeline.

(** Modelled from the spec: the Clip of the data model (section 3), whose
    relevance score is "bounded 0–100"; the back end that builds clips is
    not among the sources.  [wire] is the object the client receives. *)
Record clip := {
  wire : Clip.t;
  score_bounded : ∀ s, Clip.score wire = Some s → (0 <= s <= 100)%Q;
}.

(** Modelled from the spec: the Upload of the upload registry (section 3),
    reduced to the cached artifacts the executor consults; the registry is
    not among the sources. *)
Record upload := {
  has_media : bool;
  transcript : option string;
  cached : list clip;
}.

(** Modelled from the spec: the terminal result of a Job (sections 3 and
    4.2), [done] with the clip list or [failed] with a message. *)
Inductive outcome :=
  | Done (clips : list clip)
  | Failed (message : string).

Section Executor.

(** The stage adapters of section 4.4: each yields a value or a failure
    message.  [segment] and [crop] are the analyzer's and the cropper's
    outputs. *)
Context {segment crop : Type}.
Variable acquire : unit → string + unit.
Variable transcribe : unit → string + string.
Variable analyze : string → string + list segment.
Variable determine_crop : segment → string + crop.
Variable render_clip : segment → crop → string + clip.

(** Modelled from the spec: step 4 of section 4.3 for one segment, crop
    determination then render; a failure of either yields no clip. *)
Definition render_segment (sg : segment) : option clip :=
  match determine_crop sg with
  | inl _ => None
  | inr box =>
      match render_clip sg box with
      | inl _ => None
      | inr c => Some c
      end
  end.

(** Modelled from the spec: the per-job algorithm of section 4.3 with
    the render policy of section 4.5 (a failed segment does not abort
    its siblings; the job fails only if no clip was produced).  Returns
    the Upload as the registry holds it afterwards and the Job's
    terminal result.  The executor is not among the sources. *)
Definition execute (u : upload) : upload * outcome :=
  match (if has_media u then inr () else acquire ()) with
  | inl msg => (u, Failed msg)
  | inr _ =>
      let u1 := {| has_media := true; transcript := transcript u;
                   cached := cached u |} in
      match (match transcript u1 with
             | Some t => inr t
             | None => transcribe ()
             end) with
      | inl msg => (u1, Failed msg)
      | inr t =>
          let u2 := {| has_media := true; transcript := Some t;
                       cached := cached u1 |} in
          match analyze t with
          | inl msg => (u2, Failed msg)
          | inr segments =>
              match omap render_segment segments with
              | [] => (u2, Failed "no clips were produced")
              | c :: cs =>
                  ({| has_media := true; transcript := Some t;
                      cached := c :: cs |},
                   Done (c :: cs))
              end
          end
      end
  end.

End Executor.

End Pipeline.

(** ** The progress wire format, as the spec words it *)

Module Wire.

(** A progress descriptor: a stage tag with its stage-local measure
    (a percentage for uploading and transcribing, completed over total for
    rendering, none for analyzing). *)
Inductive t :=
  | Uploading (percent : N)
  | Transcribing (percent : N)
  | Analyzing
  | Rendering (completed total : N).

Definition stage (p : t) : string :=
  match p with
  | Uploading _ => "uploading"
  | Transcribing _ => "transcribing"
  | Analyzing => "analyzing"
  | Rendering _ _ => "rendering"
  end.

Definition measure (p : t) : option string :=
  match p with
  | Uploading n | Transcribing n => Some (pretty n +:+ "%")
  | Analyzing => None
  | Rendering c t => Some (pretty c +:+ "/" +:+ pretty t)
  end.

(** ["<stage>: <detail>"], or the bare stage name. *)
Definition encode (p : t) : string :=
  match measure p with
  | Some m => stage p +:+ ": " +:+ m
  | None => stage p
  end.

End Wire.

(** ** Predicates used in the statements *)

(** Every character of [s] satisfies [P]. *)
Fixpoint all_chars (P : ascii → bool) (s : string) : bool :=
  match s with
  | EmptyString => true
  | String c s' => P c && all_chars P s'
  end.

Definition is_digit (c : ascii) : bool :=
  let n := N_of_ascii c in ((48 <=? n) && (n <=? 57))%N.

Definition differs (c0 : ascii) (c : ascii) : bool := negb (Ascii.eqb c c0).

(** The stages whose progress text carries a measure. *)
Definition measured_stage (stage : string) : Prop :=
  stage = "uploading" ∨ stage = "transcribing" ∨ stage = "rendering".

(** The score ranges the three badge colours stand for. *)
Definition in_class (k : BadgeClass) (score : Q) : Prop :=
  match k with
  | Emerald => (80 <= score)%Q
  | Yellow => (60 <= score < 80)%Q
  | Slate => (score < 60)%Q
  end.

(** Display order: no clip is followed by one with a higher score. *)
Definition score_ge (a b : Clip.t) : Prop :=
  (score_or_zero b <= score_or_zero a)%Q.

(** A set interval is the one the polling effect wants for the current
    state. *)
Definition timer_sound (w : World) : Prop :=
  ∀ ivl, timer w = Some ivl → poll_wanted (st w) = Some ivl.

(** A request that carries the video file. *)
Definition carries_file (r : Request) : bool :=
  match r with
  | POST _ (Some _) => true
  | _ => false
  end.

Definition request_url (r : Request) : string :=
  match r with
  | GET url | POST url _ => url
  end.

(** ** Sample data *)

Definition sample_base : string := API_BASE None.

Definition sample_clips : list Clip.t :=
  [ {| Clip.path := "talk/clip_0.mp4"; Clip.title := Some "Opening";
       Clip.score := Some 72%Q; Clip.transcript_text := Some "Welcome, everyone." |};
    {| Clip.path := "talk/clip_1.mp4"; Clip.title := None;
       Clip.score := None; Clip.transcript_text := None |};
    {| Clip.path := "talk/clip_2.mp4"; Clip.title := Some "The demo";
       Clip.score := Some 91%Q; Clip.transcript_text := Some "" |} ].

Definition sample_upload : Upload.t (list Clip.t) :=
  {| Upload.path := "clipper_output/uploads/talk 1.mp4";
     Upload.filename := "talk 1.mp4";
     Upload.created_at := 1730000000;
     Upload.thumbnail := Some "thumbs/talk.jpg";
     Upload.has_transcript := true;
     Upload.clips := Some sample_clips |}.

(** The component after mounting and receiving the upload list. *)
Definition browsing_world : World :=
  run WithUploads sample_base (mount WithUploads sample_base "AIza-example" "")
    [UploadsReplied (Some [sample_upload])].

(** … after asking to regenerate the first upload and getting a job. *)
Definition polling_world : World :=
  run WithUploads sample_base browsing_world
    [GenerateClips 0; ProcessReplied (inl (Some "job-1"))].

Definition sample_done : Job :=
  {| job_status := "done"; job_clips := Some sample_clips; job_error := None |}.

(** … after the poll that reports the job done. *)
Definition gallery_world : World :=
  run WithUploads sample_base polling_world [PollTick (Some sample_done)].

(** A clip of the back end with a score within bounds. *)
Definition scored_clip (file : string) (s : Q) (Hs : (0 <= s <= 100)%Q)
  : Pipeline.clip :=
  {| Pipeline.wire :=
       {| Clip.path := file; Clip.title := None; Clip.score := Some s;
          Clip.transcript_text := None |};
     Pipeline.score_bounded := ltac:(intros s' [= <-]; exact Hs) |}.

Definition sample_best : Pipeline.clip :=
  scored_clip "talk/clip_0.mp4" 85 ltac:(split; discriminate).

Definition sample_produced : list Pipeline.clip :=
  [ sample_best; scored_clip "talk/clip_1.mp4" 40 ltac:(split; discriminate) ].

Definition sample_source : Pipeline.upload :=
  {| Pipeline.has_media := true; Pipeline.transcript := None;
     Pipeline.cached := [] |}.

(** Adapters that always succeed; the analyzer proposes [sample_produced]. *)
Definition sample_execute : Pipeline.upload → Pipeline.upload * Pipeline.outcome :=
  Pipeline.execute
    (λ _, inr ())
    (λ _, inr "welcome everyone")
    (λ _, inr sample_produced)
    (λ _ : Pipeline.clip, inr ())
    (λ (sg : Pipeline.clip) (_ : unit), inr sg).

(** ** The API-key dialog *)

Module KeyModal.

Definition gemini_item : string := "clipper_gemini_key".

Definition openai_item : string := "clipper_openai_key".

(** The [useState] cells of the dialog.  The second revision has one key,
    [apiKey], held here in [geminiKey]; its [openaiKey] stays empty. *)
Record state := {
  geminiKey : string;
  openaiKey : string;
  showKeyModal : bool;
}.

(** The initial values, read from [localStorage]:
    [useState(localStorage.getItem('clipper_gemini_key') || '')] and
    [useState(!localStorage.getItem('clipper_gemini_key'))], the first
    revision with the OpenAI item besides
    ([!getItem(gemini) || !getItem(openai)]). *)
Definition init (rev : Revision) (ls : gmap string string) : state :=
  {| geminiKey := JS.or_else (ls !! gemini_item) "";
     openaiKey :=
       match rev with
       | Frontend => JS.or_else (ls !! openai_item) ""
       | WithUploads => ""
       end;
     showKeyModal :=
       match rev with
       | Frontend => JS.falsy (ls !! gemini_item) || JS.falsy (ls !! openai_item)
       | WithUploads => JS.falsy (ls !! gemini_item)
       end |}.

(** [disabled={!apiKey.trim()}], in the first revision
    [!geminiKey.trim() || !openaiKey.trim()]; the click handler tests the
    same condition. *)
Definition save_disabled (rev : Revision) (s : state) : bool :=
  match rev with
  | Frontend =>
      negb (JS.truthy (JS.trim (geminiKey s)))
      || negb (JS.truthy (JS.trim (openaiKey s)))
  | WithUploads => negb (JS.truthy (JS.trim (geminiKey s)))
  end.

(** The label of the header button:
    [apiKey ? 'Update API Key' : 'Set API Key'], in the first revision
    [geminiKey && openaiKey ? 'Update API Keys' : 'Set API Keys']. *)
Definition header_label (rev : Revision) (s : state) : string :=
  match rev with
  | Frontend =>
      if JS.truthy (geminiKey s) && JS.truthy (openaiKey s)
      then "Update API Keys" else "Set API Keys"
  | WithUploads =>
      if JS.truthy (geminiKey s) then "Update API Key" else "Set API Key"
  end.

Inductive event :=
  | OpenModal
  | TypeGemini (value : string)
  | TypeOpenai (value : string)
  | Save.

(** One event on the dialog's state and on [localStorage].  The inputs and
    the save button exist only while the dialog is shown; the OpenAI input
    exists only in the first revision. *)
Definition step (rev : Revision) (x : state * gmap string string) (e : event)
  : state * gmap string string :=
  let '(s, ls) := x in
  match e with
  | OpenModal =>
      ({| geminiKey := geminiKey s; openaiKey := openaiKey s;
          showKeyModal := true |}, ls)
  | TypeGemini v =>
      if showKeyModal s
      then ({| geminiKey := v; openaiKey := openaiKey s;
               showKeyModal := true |}, ls)
      else x
  | TypeOpenai v =>
      match rev with
      | Frontend =>
          if showKeyModal s
          then ({| geminiKey := geminiKey s; openaiKey := v;
                   showKeyModal := true |}, ls)
          else x
      | WithUploads => x
      end
  | Save =>
      if showKeyModal s && negb (save_disabled rev s) then
        let ls1 := <[gemini_item := JS.trim (geminiKey s)]> ls in
        let ls2 :=
          match rev with
          | Frontend => <[openai_item := JS.trim (openaiKey s)]> ls1
          | WithUploads => ls1
          end in
        ({| geminiKey := geminiKey s; openaiKey := openaiKey s;
            showKeyModal := false |}, ls2)
      else x
  end.

Definition run (rev : Revision) (x : state * gmap string string)
    (es : list event) : state * gmap string string :=
  foldl (step rev) x es.

End KeyModal.


(** ** Further predicates used in the statements *)


(** The dialog is shown, or a reload would not show it. *)
Definition hidden_justified (rev : Revision) (s : KeyModal.state)
    (ls : gmap string string) : Prop :=
  KeyModal.showKeyModal s = true
  ∨ KeyModal.showKeyModal (KeyModal.init rev ls) = false.

(** The values of [status] named in the source comment. *)
Definition known_status (s : string) : Prop :=
  s = "idle" ∨ s = "uploading" ∨ s = "processing" ∨ s = "done" ∨ s = "error".




(** The requests the component makes: the two reads, the upload of the
    chosen file, and the process request, which carries no file. *)
Definition known_request (base : string) (r : Request) : Prop :=
  match r with
  | GET url => url = uploads_url base ∨ ∃ id, url = job_url base id
  | POST url (Some _) => url = upload_url base
  | POST url None => ∃ rev s path, url = process_url rev base s path
  end.

(** The request of the effect that depends on [status]. *)
Definition refresh (rev : Revision) (base : string) : list Request :=
  match rev with
  | WithUploads => [GET (uploads_url base)]
  | Frontend => []
  end.

(** The settling of a promise, or an upload-progress callback, as opposed to
    a click, a file choice or a tick of the interval. *)
Definition is_reply (e : Event) : bool :=
  match e with
  | UploadsReplied _ | UploadProgress _ _ | UploadReplied _ | ProcessReplied _ =>
      true
  | _ => false
  end.

(** A character [encodeURIComponent] can put out: an unreserved one or the
    percent sign. *)
Definition uri_safe (c : ascii) : bool :=
  JS.unreserved c || Ascii.eqb c "%".


(** An entry [u'] of the list in state holds the entry [u] of the payload:
    the same fields, and its clips location leads to the payload's array. *)
Definition held_as (h : store) (u : Upload.t (list Clip.t)) (u' : Upload.t nat)
  : Prop :=
  Upload.path u' = Upload.path u
  ∧ Upload.filename u' = Upload.filename u
  ∧ Upload.created_at u' = Upload.created_at u
  ∧ Upload.thumbnail u' = Upload.thumbnail u
  ∧ Upload.has_transcript u' = Upload.has_transcript u
  ∧ (l ← Upload.clips u'; h !! l) = Upload.clips u.

(** The characters that delimit the parts of a URL and of its query. *)
Definition url_delimiters : list ascii :=
  ["&"; "="; "?"; "#"; "/"; " "; "+"]%char.

(** * Properties *)

(** ** Strings *)

Section Strings.

Implicit Types (s t sep cur : string) (c : ascii).

Lemma app_cons c s t : String c s +:+ t = String c (s +:+ t).
Proof. reflexivity. Qed.

Lemma app_empty_l s : "" +:+ s = s.
Proof. reflexivity. Qed.

Lemma app_empty_r s : s +:+ "" = s.
Proof.
  induction s as [|c s IH]; [done |]. by rewrite app_cons, IH.
Qed.

Lemma app_assoc' s t u : (s +:+ t) +:+ u = s +:+ (t +:+ u).
Proof.
  induction s as [|c s IH]; [done |]. by rewrite !app_cons, IH.
Qed.

Lemma prefix_app s t : String.prefix s (s +:+ t) = true.
Proof.
  induction s as [|c s IH]; [by destruct t |].
  rewrite app_cons. cbn [String.prefix].
  destruct (ascii_dec c c); [done | congruence].
Qed.

Lemma prefix_head_differs c0 sep c s :
  differs c0 c = true → String.prefix (String c0 sep) (String c s) = false.
Proof.
  unfold differs. intros H. simpl.
  destruct (ascii_dec c0 c) as [->|]; [| done].
  by rewrite Ascii.eqb_refl in H.
Qed.

Lemma split_go_skip sep x cur t :
  JS.split_go sep (String.length x) cur (x +:+ t) = JS.split_go sep 0 cur t.
Proof.
  induction x as [|c x IH]; [by destruct t |].
  rewrite app_cons. by cbn [JS.split_go String.length].
Qed.

(** The first cut falls at the first separator when the piece before it
    has no character that could start one. *)
Lemma split_go_first c0 sep a cur t :
  all_chars (differs c0) a = true →
  JS.split_go (String c0 sep) 0 cur (a +:+ String c0 sep +:+ t)
  = (cur +:+ a) :: JS.split_go (String c0 sep) 0 "" t.
Proof.
  revert cur. induction a as [|c a IH]; intros cur Ha.
  - rewrite app_empty_l, app_cons. cbn [JS.split_go].
    rewrite <- app_cons, prefix_app, app_empty_r.
    cbn [String.length]. rewrite Nat.sub_1_r. cbn [Nat.pred].
    by rewrite split_go_skip.
  - cbn [all_chars] in Ha. apply andb_prop in Ha as [Hc Ha].
    rewrite app_cons. cbn [JS.split_go]. rewrite (prefix_head_differs _ _ _ _ Hc).
    rewrite IH by done. by rewrite app_assoc', app_cons.
Qed.

(** A string in which the separator does not occur is one piece. *)
Lemma split_go_whole sep cur s :
  JS.includes s sep = false → JS.split_go sep 0 cur s = [cur +:+ s].
Proof.
  revert cur. induction s as [|c s IH]; intros cur Hs.
  - by rewrite app_empty_r.
  - cbn [JS.includes] in Hs. apply orb_false_elim in Hs as [Hp Hs].
    cbn [JS.split_go]. rewrite Hp, IH by done.
    by rewrite app_assoc', app_cons.
Qed.

Lemma includes_no_head c0 sep s :
  all_chars (differs c0) s = true → JS.includes s (String c0 sep) = false.
Proof.
  induction s as [|c s IH]; intros Hs; [done |].
  cbn [all_chars] in Hs. apply andb_prop in Hs as [Hc Hs].
  cbn [JS.includes]. by rewrite (prefix_head_differs _ _ _ _ Hc), IH.
Qed.

Lemma all_chars_app P s t :
  all_chars P (s +:+ t) = all_chars P s && all_chars P t.
Proof.
  induction s as [|c s IH]; [done |].
  rewrite app_cons. cbn [all_chars]. by rewrite IH, andb_assoc.
Qed.

Lemma all_chars_impl (P Q : ascii → bool) s :
  (∀ c, P c = true → Q c = true) → all_chars P s = true → all_chars Q s = true.
Proof.
  intros HPQ. induction s as [|c s IH]; simpl; [done |].
  intros [Hc Hs]%andb_prop. by rewrite (HPQ _ Hc), IH.
Qed.

End Strings.

(** ** Decimal numerals *)

Section Numerals.

Lemma is_digit_pretty_N_char (d : N) : is_digit (pretty_N_char d) = true.
Proof. unfold pretty_N_char. by repeat case_match. Qed.

Lemma digit_val_pretty_N_char (d : N) :
  (d < 10)%N → JS.digit_val (pretty_N_char d) = Some d.
Proof.
  intros Hd.
  assert (d = 0 ∨ d = 1 ∨ d = 2 ∨ d = 3 ∨ d = 4 ∨ d = 5 ∨ d = 6
          ∨ d = 7 ∨ d = 8 ∨ d = 9)%N as Hcases by lia.
  by repeat (destruct Hcases as [->|Hcases]); [..| subst d].
Qed.

Lemma all_digits_pretty_N_go (x : N) (s : string) :
  all_chars is_digit s = true → all_chars is_digit (pretty_N_go x s) = true.
Proof.
  revert s. induction (N.lt_wf_0 x) as [x _ IH]; intros s Hs.
  destruct (decide (x = 0)%N) as [->|Hx]; [by rewrite pretty_N_go_0 |].
  rewrite pretty_N_go_step by lia.
  apply IH; [apply N.div_lt; lia |].
  cbn [all_chars]. by rewrite is_digit_pretty_N_char.
Qed.

Lemma all_digits_pretty_N (n : N) : all_chars is_digit (pretty n) = true.
Proof.
  unfold pretty, pretty_N. case_decide; [done |].
  by apply all_digits_pretty_N_go.
Qed.

(** Reading back the digits that [pretty] wrote. *)
Lemma parse_digits_pretty_N_go (x : N) (s : string) :
  (0 < x)%N →
  JS.parse_digits 10 None (pretty_N_go x s) = JS.parse_digits 10 (Some x) s.
Proof.
  revert s. induction (N.lt_wf_0 x) as [x _ IH]; intros s Hx.
  rewrite pretty_N_go_step by done.
  assert (x `mod` 10 < 10)%N as Hm by (apply N.mod_lt; lia).
  destruct (decide (x `div` 10 = 0)%N) as [Hq|Hq].
  - rewrite Hq, pretty_N_go_0. cbn [JS.parse_digits].
    rewrite digit_val_pretty_N_char by done.
    destruct (N.ltb_spec (x `mod` 10) 10); [| lia].
    do 2 f_equal. simpl. pose proof (N.div_mod x 10). lia.
  - rewrite IH; [| apply N.div_lt; lia | by apply N.neq_0_lt_0].
    cbn [JS.parse_digits]. rewrite digit_val_pretty_N_char by done.
    destruct (N.ltb_spec (x `mod` 10) 10); [| lia].
    do 2 f_equal. simpl. pose proof (N.div_mod x 10). lia.
Qed.

Lemma parse_digits_pretty_N (n : N) :
  JS.parse_digits 10 None (pretty n) = Some n.
Proof.
  unfold pretty, pretty_N. case_decide as Hn; [by subst |].
  rewrite parse_digits_pretty_N_go by lia. done.
Qed.

Lemma pretty_N_nonempty (n : N) : pretty n ≠ "".
Proof.
  intros H. pose proof (parse_digits_pretty_N n) as Hp.
  by rewrite H in Hp.
Qed.

(** [parseInt] of a decimal numeral is the number it denotes. *)
Lemma parseInt_pretty_N (n : N) :
  JS.parseInt_string (pretty n) = JS.of_Z (Z.of_N n).
Proof.
  pose proof (all_digits_pretty_N n) as Hd.
  pose proof (parse_digits_pretty_N n) as Hp.
  unfold JS.parseInt_string.
  destruct (pretty n) as [|c s] eqn:Hs; [done |].
  cbn [all_chars] in Hd. apply andb_prop in Hd as [Hc Hd].
  assert (JS.skip_spaces (String c s) = String c s) as ->.
  { cbn [JS.skip_spaces].
    assert (JS.is_space c = false) as ->; [| done].
    revert Hc. unfold is_digit, JS.is_space.
    generalize (N_of_ascii c). intros m Hm.
    apply andb_prop in Hm as [?%N.leb_le ?%N.leb_le].
    apply orb_false_intro;
      [apply andb_false_intro2, N.leb_gt | apply N.eqb_neq]; lia. }
  assert (JS.strip_sign (String c s) = (false, String c s)) as ->.
  { unfold JS.strip_sign.
    destruct c as [[] [] [] [] [] [] [] []]; try done. }
  assert (JS.strip_hex (String c s) = (10%N, String c s)) as ->.
  { unfold JS.strip_hex. destruct s as [|c' s']; [by destruct c as [[] [] [] [] [] [] [] []] |].
    cbn [all_chars] in Hd. apply andb_prop in Hd as [Hc' _].
    destruct c as [[] [] [] [] [] [] [] []]; try done;
    destruct c' as [[] [] [] [] [] [] [] []]; try done. }
  by rewrite Hp.
Qed.

Lemma digit_differs (c0 c : ascii) :
  is_digit c0 = false → is_digit c = true → differs c0 c = true.
Proof.
  unfold differs. intros H0 Hc.
  destruct (Ascii.eqb_spec c c0) as [->|]; [congruence | done].
Qed.

Lemma pretty_N_no_char (c0 : ascii) (n : N) :
  is_digit c0 = false → all_chars (differs c0) (pretty n) = true.
Proof.
  intros H0. eapply all_chars_impl, all_digits_pretty_N.
  intros c. by apply digit_differs.
Qed.

End Numerals.

(** ** The API base URL *)

Section ApiBase.

Lemma API_BASE_nonempty (c : ascii) (b : string) :
  API_BASE (Some (String c b))
  = if JS.startsWith (String c b) "http" then String c b
    else "https://" +:+ String c b.
Proof.
  unfold API_BASE. cbn [JS.or_else JS.truthy andb].
  by destruct (JS.startsWith (String c b) "http").
Qed.

(** C9, as stated, fails on the empty configuration: the client does not
    keep the empty string but falls back to the local default. *)
Lemma API_BASE_empty_is_default :
  API_BASE (Some "") = "http://localhost:8000" ∧ API_BASE (Some "") ≠ "".
Proof. split; [reflexivity | discriminate]. Qed.

(** C9 (amended): an unset or empty configuration yields the default
    ['http://localhost:8000']; a non-empty [b] that starts with ['http'] is
    used unchanged; any other non-empty [b] becomes ['https://' + b]. *)
Theorem API_BASE_cases (env : option string) :
  API_BASE env =
    match env with
    | None | Some EmptyString => "http://localhost:8000"
    | Some b => if JS.startsWith b "http" then b else "https://" +:+ b
    end.
Proof.
  destruct env as [[|c b]|]; [reflexivity | | reflexivity].
  apply API_BASE_nonempty.
Qed.

End ApiBase.

Example API_BASE_host :
  API_BASE (Some "clipper.example.com") = "https://clipper.example.com".
Proof. reflexivity. Qed.

Example API_BASE_https :
  API_BASE (Some "https://clipper.example.com") = "https://clipper.example.com".
Proof. reflexivity. Qed.

Example API_BASE_http_prefix_only :
  API_BASE (Some "httpbin.example.com") = "httpbin.example.com".
Proof. reflexivity. Qed.

(** ** The progress panel *)

Example split_three : JS.split "a: b: c" ": " = ["a"; "b"; "c"].
Proof. reflexivity. Qed.

Example split_trailing : JS.split "rendering: " ": " = ["rendering"; ""].
Proof. reflexivity. Qed.

Example split_no_separator : JS.split "analyzing" ": " = ["analyzing"].
Proof. reflexivity. Qed.

Example split_of_empty : JS.split "" ": " = [""].
Proof. reflexivity. Qed.

Section ProgressPanel.

Implicit Types (stage d progress : string).

Lemma measured_stage_no_colon stage :
  measured_stage stage → all_chars (differs ":") stage = true.
Proof. intros [->|[->| ->]]; reflexivity. Qed.

Lemma measured_stage_has_measure stage d :
  measured_stage stage → has_measure (stage +:+ d) = true.
Proof. intros [->|[->| ->]]; by destruct d. Qed.

(** [progress.split(': ')] of a stage name followed by a detail. *)
Lemma split_stage_detail stage d :
  measured_stage stage →
  JS.includes d ": " = false →
  JS.split (stage +:+ ": " +:+ d) ": " = [stage; d].
Proof.
  intros Hst Hd. unfold JS.split.
  rewrite (split_go_first ":" " " stage "" d) by by apply measured_stage_no_colon.
  by rewrite (split_go_whole ": " "" d).
Qed.

(** [progress.split(':')[0]] is the stage name. *)
Lemma split_colon_head stage d :
  measured_stage stage →
  JS.split (stage +:+ ": " +:+ d) ":" !! 0%nat = Some stage.
Proof.
  intros Hst. unfold JS.split.
  change (": " +:+ d) with (":" +:+ " " +:+ d).
  by rewrite (split_go_first ":" "" stage "" (" " +:+ d))
    by by apply measured_stage_no_colon.
Qed.

(** A detail that is there, is not the placeholder and has no separator of
    its own is what the badge and the label show. *)
Lemma render_progress_detail rev status stage d :
  measured_stage stage →
  d ≠ "" → d ≠ "preparing..." → JS.includes d ": " = false →
  spinner (render_progress rev status (stage +:+ ": " +:+ d)) = SpinnerText d
  ∧ detail (render_progress rev status (stage +:+ ": " +:+ d))
    = Bar stage (Some d) (bar_width (stage +:+ ": " +:+ d)).
Proof.
  intros Hst Hne Hprep Hd.
  unfold render_progress, spinner_text. cbn [spinner detail].
  rewrite measured_stage_has_measure by done.
  rewrite split_stage_detail, split_colon_head by done.
  cbn [lookup list_lookup default JS.falsy].
  destruct d as [|c d]; [done |]. cbn [JS.truthy negb].
  rewrite decide_False by congruence. done.
Qed.

Lemma pretty_N_plain (n : N) (sfx : string) :
  all_chars (differs ":") sfx = true →
  JS.includes (pretty n +:+ sfx) ": " = false.
Proof.
  intros Hs. apply includes_no_head.
  by rewrite all_chars_app, pretty_N_no_char, Hs.
Qed.

Lemma pretty_N_head (n : N) :
  ∃ c s, pretty n = String c s ∧ is_digit c = true.
Proof.
  pose proof (pretty_N_nonempty n) as Hne.
  pose proof (all_digits_pretty_N n) as Hd.
  destruct (pretty n) as [|c s]; [done |].
  cbn [all_chars] in Hd. apply andb_prop in Hd as [Hc _]. eauto.
Qed.

Lemma measure_well_formed (p : Wire.t) (m : string) :
  Wire.measure p = Some m →
  m ≠ "" ∧ m ≠ "preparing..." ∧ JS.includes m ": " = false.
Proof.
  assert (∀ (n : N) sfx, pretty n +:+ sfx ≠ ""
                         ∧ pretty n +:+ sfx ≠ "preparing...") as Hne.
  { intros n sfx. destruct (pretty_N_head n) as (c & s & -> & Hc).
    rewrite app_cons. split; [discriminate |].
    intros [= -> _]. discriminate Hc. }
  destruct p as [n|n| |c t]; intros [= <-];
    (split; [apply Hne |]); (split; [apply Hne |]).
  - by apply pretty_N_plain.
  - by apply pretty_N_plain.
  - apply pretty_N_plain. rewrite app_cons, app_empty_l. cbn [all_chars].
    by rewrite pretty_N_no_char.
Qed.

Lemma measure_stage (p : Wire.t) (m : string) :
  Wire.measure p = Some m → measured_stage (Wire.stage p).
Proof. unfold measured_stage. destruct p; naive_solver. Qed.

Lemma analyzing_not_measured progress :
  JS.startsWith progress "analyzing" = true → has_measure progress = false.
Proof.
  intros H. destruct progress as [|c s]; [done |].
  unfold JS.startsWith in H. cbn [String.prefix] in H.
  destruct (ascii_dec "a" c) as [<-|]; [reflexivity | done].
Qed.

End ProgressPanel.

(** C1: a progress text in the wire format is classified by its stage; the
    detail after [': '] of an uploading, transcribing or rendering text is
    what the badge and the label show (["n%"], ["c/t"]), and a text that
    begins with ['analyzing'] is shown as the indeterminate pulse, with a
    bare spinner. *)
Theorem render_progress_follows_wire_format (rev : Revision) (status : string) :
  (∀ p : Wire.t,
     let panel := render_progress rev status (Wire.encode p) in
     match Wire.measure p with
     | Some m =>
         spinner panel = SpinnerText m
         ∧ ∃ w, detail panel = Bar (Wire.stage p) (Some m) w
     | None =>
         spinner panel = SpinnerBare
         ∧ ∃ l, detail panel = Pulse l "AI is finding clips..."
     end)
  ∧ (∀ stage d : string,
       measured_stage stage →
       d ≠ "" → d ≠ "preparing..." → JS.includes d ": " = false →
       let panel := render_progress rev status (stage +:+ ": " +:+ d) in
       spinner panel = SpinnerText d ∧ ∃ w, detail panel = Bar stage (Some d) w)
  ∧ (∀ progress : string,
       JS.startsWith progress "analyzing" = true →
       let panel := render_progress rev status progress in
       spinner panel = SpinnerBare
       ∧ ∃ l, detail panel = Pulse l "AI is finding clips...").
Proof.
  assert (∀ progress : string,
            JS.startsWith progress "analyzing" = true →
            spinner (render_progress rev status progress) = SpinnerBare
            ∧ ∃ l, detail (render_progress rev status progress)
                   = Pulse l "AI is finding clips...") as Hanalyzing.
  { intros progress Ha. unfold render_progress. cbn [spinner detail].
    rewrite analyzing_not_measured, Ha by done. eauto. }
  assert (∀ stage d : string,
            measured_stage stage →
            d ≠ "" → d ≠ "preparing..." → JS.includes d ": " = false →
            spinner (render_progress rev status (stage +:+ ": " +:+ d))
            = SpinnerText d
            ∧ ∃ w, detail (render_progress rev status (stage +:+ ": " +:+ d))
                   = Bar stage (Some d) w) as Hdetail.
  { intros stage d Hst H1 H2 H3.
    destruct (render_progress_detail rev status stage d) as [-> ->]; eauto. }
  split; [| split; [exact Hdetail | exact Hanalyzing]].
  intros p panel. subst panel. unfold Wire.encode.
  destruct (Wire.measure p) as [m|] eqn:Hm.
  - destruct (measure_well_formed p m Hm) as (? & ? & ?).
    apply Hdetail; eauto using measure_stage.
  - destruct p; try discriminate. by apply Hanalyzing.
Qed.

Lemma render_progress_follows_wire_format_witness :
  (spinner (render_progress WithUploads "processing" "rendering: 3/10")
   = SpinnerText "3/10"
   ∧ ∃ w, detail (render_progress WithUploads "processing" "rendering: 3/10")
          = Bar "rendering" (Some "3/10") w)
  ∧ (spinner (render_progress WithUploads "processing" "analyzing")
     = SpinnerBare
     ∧ ∃ l, detail (render_progress WithUploads "processing" "analyzing")
            = Pulse l "AI is finding clips...").
Proof.
  split.
  - apply (proj1 (proj2
      (render_progress_follows_wire_format WithUploads "processing"))
      "rendering" "3/10").
    + right; right; reflexivity.
    + discriminate.
    + discriminate.
    + reflexivity.
  - apply (proj2 (proj2
      (render_progress_follows_wire_format WithUploads "processing"))
      "analyzing").
    reflexivity.
Defined.

Example progress_uploading_42 :
  render_progress WithUploads "uploading" (Wire.encode (Wire.Uploading 42))
  = {| spinner := SpinnerText "42%";
       heading := "Uploading Video...";
       detail := Bar "uploading" (Some "42%") (WidthStr "42%") |}.
Proof. vm_compute. reflexivity. Qed.

Example progress_analyzing_both_revisions :
  detail (render_progress Frontend "processing" "analyzing")
  = Pulse "analyzing" "AI is finding clips..."
  ∧ detail (render_progress WithUploads "processing" "analyzing")
    = Pulse "Analyzing Transcript" "AI is finding clips...".
Proof. split; reflexivity. Qed.

Example progress_queued :
  detail (render_progress WithUploads "processing" "queued")
  = CurrentStep "Current Step: queued".
Proof. reflexivity. Qed.

Example progress_preparing :
  render_progress WithUploads "processing" "transcribing: preparing..."
  = {| spinner := SpinnerText "5%";
       heading := "Processing...";
       detail := Bar "transcribing" (Some "preparing...") (WidthStr "5%") |}.
Proof. reflexivity. Qed.

(** ** The width of the progress bar *)

Section BarWidth.

Lemma split_fraction (c t : N) :
  JS.split (pretty c +:+ "/" +:+ pretty t) "/" = [pretty c; pretty t].
Proof.
  unfold JS.split.
  rewrite (split_go_first "/" "" (pretty c) "" (pretty t))
    by by apply pretty_N_no_char.
  rewrite (split_go_whole "/" "" (pretty t)); [done |].
  by apply includes_no_head, pretty_N_no_char.
Qed.

Lemma sign_of_positive (z : Z) : 0 < z → JS.sign (JS.of_Z z) = Gt.
Proof.
  intros Hz. unfold JS.sign, JS.of_Z, Qcompare, inject_Z. cbn [Qnum Qden].
  rewrite Z.mul_1_r. by apply Z.compare_gt_iff.
Qed.

(** The value inside [`${…}%`] for a rendering text. *)
Lemma bar_width_rendering (c t : N) :
  (1 ≤ t)%N →
  bar_width ("rendering: " +:+ pretty c +:+ "/" +:+ pretty t)
  = WidthPct (JS.Math_max (JS.of_Z 5)
      (JS.Fin (inject_Z (Z.of_N c) / inject_Z (Z.of_N t) * inject_Z 100))).
Proof.
  intros Ht. unfold bar_width.
  change ("rendering: " +:+ pretty c +:+ "/" +:+ pretty t)
    with ("rendering" +:+ ": " +:+ (pretty c +:+ "/" +:+ pretty t)).
  destruct (measure_well_formed (Wire.Rendering c t) _ eq_refl)
    as (Hne & Hprep & Hinc).
  rewrite split_stage_detail by (done || (right; right; done)).
  cbn [lookup list_lookup default JS.falsy].
  destruct (pretty c +:+ "/" +:+ pretty t) as [|x d] eqn:Hd; [done |].
  cbn [JS.truthy negb]. rewrite decide_False by congruence.
  rewrite <- Hd. unfold id. rewrite split_fraction.
  cbn [lookup list_lookup JS.parseInt].
  rewrite !parseInt_pretty_N.
  replace (JS.startsWith _ "rendering") with true by by destruct (pretty c).
  unfold JS.div, JS.mul. cbn [JS.of_Z].
  change (JS.Fin (inject_Z (Z.of_N t))) with (JS.of_Z (Z.of_N t)).
  rewrite sign_of_positive by lia. done.
Qed.

Lemma Math_max_5 (x : Q) :
  ∃ q, JS.Math_max (JS.of_Z 5) (JS.Fin x) = JS.Fin q
       ∧ (q == Qmax 5 x)%Q ∧ (5 <= q)%Q.
Proof.
  unfold JS.Math_max, JS.of_Z.
  destruct (Qle_bool (inject_Z 5) x) eqn:Hle.
  - apply Qle_bool_iff in Hle. exists x. split; [done |]. split; [| done].
    symmetry. by apply Q.max_r.
  - exists (inject_Z 5). split; [done |]. split; [| apply Qle_refl].
    symmetry. apply Q.max_l. apply Qlt_le_weak, Qnot_le_lt.
    intros Hle'. apply Qle_bool_iff in Hle'. congruence.
Qed.


End BarWidth.



Example bar_width_3_of_10 :
  width_string (bar_width "rendering: 3/10") = Some "30%".
Proof. vm_compute. reflexivity. Qed.

Example bar_width_0_of_7 : bar_width "rendering: 0/7" = WidthPct (JS.Fin 5).
Proof. vm_compute. reflexivity. Qed.

Example bar_width_bare_stage : bar_width "transcribing" = WidthStr "5%".
Proof. reflexivity. Qed.

Example bar_width_percentage : bar_width "uploading: 42%" = WidthStr "42%".
Proof. reflexivity. Qed.

Example bar_width_zero_total : bar_width "rendering: 0/0" = WidthPct JS.NaN.
Proof. vm_compute. reflexivity. Qed.

(** ** The upload percentage *)

Section UploadProgress.

(** [Math.round] of a quotient of integers, in integer arithmetic. *)
Lemma Math_round_quotient (a b : Z) :
  0 < b →
  JS.Math_round (JS.div (JS.mul (JS.of_Z a) (JS.of_Z 100)) (JS.of_Z b))
  = JS.IInt ((200 * a + b) `div` (2 * b)).
Proof.
  intros Hb. unfold JS.mul, JS.div. cbn [JS.of_Z].
  change (JS.Fin (inject_Z b)) with (JS.of_Z b).
  rewrite sign_of_positive by done. cbn [JS.Math_round]. f_equal.
  destruct b as [|b|b]; [lia | | lia].
  unfold Qfloor, Qplus, Qdiv, Qmult, Qinv, inject_Z. cbn [Qnum Qden].
  f_equal; lia.
Qed.

End UploadProgress.



Example upload_progress_start :
  upload_progress (JS.of_Z 0) (JS.of_Z 734003200) = "uploading: 0%".
Proof. vm_compute. reflexivity. Qed.

Example upload_progress_tie :
  upload_progress (JS.of_Z 1) (JS.of_Z 8) = "uploading: 13%".
Proof. vm_compute. reflexivity. Qed.

Example upload_progress_complete :
  upload_progress (JS.of_Z 734003200) (JS.of_Z 734003200) = "uploading: 100%".
Proof. vm_compute. reflexivity. Qed.

Example upload_progress_unknown_total :
  upload_progress (JS.of_Z 5) JS.NaN = "uploading: NaN%".
Proof. reflexivity. Qed.

(** ** The gallery *)

Section Sorting.

(** A comparator that is consistent in the sense of the standard: it never
    asks for both orders of a pair, and the order it allows is transitive. *)
Context {A : Type} (cmp : A → A → Q).

Let before (x y : A) : Prop := (cmp x y <= 0)%Q.

Hypothesis cmp_total : ∀ x y, ¬ before x y → before y x.
Hypothesis cmp_trans : ∀ x y z, before x y → before y z → before x z.

Lemma insert_by_Permutation (x : A) (l : list A) :
  JS.insert_by cmp x l ≡ₚ x :: l.
Proof.
  induction l as [|y l IH]; [done |]. cbn [JS.insert_by].
  destruct (Qle_bool (cmp x y) 0); [done |].
  by rewrite IH, Permutation_swap.
Qed.

Lemma sort_Permutation (l : list A) : JS.sort cmp l ≡ₚ l.
Proof.
  induction l as [|x l IH]; [done |]. cbn [JS.sort foldr].
  fold (JS.sort cmp l). by rewrite insert_by_Permutation, IH.
Qed.

Lemma insert_by_HdRel (z x : A) (l : list A) :
  before z x → HdRel before z l → HdRel before z (JS.insert_by cmp x l).
Proof.
  intros Hzx Hl. destruct l as [|y l]; cbn [JS.insert_by]; [by constructor |].
  destruct (Qle_bool (cmp x y) 0); constructor; [done | by inversion Hl].
Qed.

Lemma insert_by_Sorted (x : A) (l : list A) :
  Sorted before l → Sorted before (JS.insert_by cmp x l).
Proof using cmp_total.
  induction l as [|y l IH]; intros Hl; cbn [JS.insert_by].
  - by repeat constructor.
  - destruct (Qle_bool (cmp x y) 0) eqn:Hxy.
    + constructor; [done |]. constructor. by apply Qle_bool_iff.
    + inversion Hl as [|?? Hs Hh]; subst. constructor; [by apply IH |].
      apply insert_by_HdRel; [| done]. apply cmp_total.
      unfold before. rewrite <- Qle_bool_iff. by rewrite Hxy.
Qed.

Lemma sort_Sorted (l : list A) : Sorted before (JS.sort cmp l).
Proof using cmp_total.
  induction l as [|x l IH]; [constructor |]. cbn [JS.sort foldr].
  by apply insert_by_Sorted.
Qed.

Lemma sort_StronglySorted (l : list A) : StronglySorted before (JS.sort cmp l).
Proof using cmp_total cmp_trans.
  apply Sorted_StronglySorted; [exact cmp_trans | apply sort_Sorted].
Qed.

(** Stability: elements that the comparator never puts in the other order
    keep the order they had. *)
Section Stable.

Context (P : A → Prop) `{!∀ x, Decision (P x)}.

Hypothesis P_ties : ∀ x y, P x → P y → before x y.

Lemma insert_by_filter (x : A) (l : list A) :
  filter P (JS.insert_by cmp x l) = filter P (x :: l).
Proof using P_ties.
  induction l as [|y l IH]; [done |]. cbn [JS.insert_by].
  destruct (Qle_bool (cmp x y) 0) eqn:Hxy; [done |].
  rewrite filter_cons, IH, !filter_cons.
  destruct (decide (P x)) as [Hx|Hx], (decide (P y)) as [Hy|Hy]; try done.
  pose proof (P_ties x y Hx Hy) as Hb. unfold before in Hb.
  apply Qle_bool_iff in Hb. congruence.
Qed.

Lemma sort_stable (l : list A) : filter P (JS.sort cmp l) = filter P l.
Proof using P_ties.
  induction l as [|x l IH]; [done |]. cbn [JS.sort foldr].
  fold (JS.sort cmp l). by rewrite insert_by_filter, !filter_cons, IH.
Qed.

End Stable.

End Sorting.

Section Gallery.

Implicit Types (h : store) (l k : nat) (cs : list Clip.t).

Lemma by_score_before (a b : Clip.t) : (by_score a b <= 0)%Q ↔ score_ge a b.
Proof.
  unfold by_score, score_ge.
  generalize (score_or_zero a) (score_or_zero b). intros x y. split; lra.
Qed.

Lemma StronglySorted_weaken {A} (R R' : relation A) (l : list A) :
  (∀ x y, R x y → R' x y) → StronglySorted R l → StronglySorted R' l.
Proof.
  intros HR. induction 1 as [|x l _ IH Hx]; constructor; [done |].
  eapply Forall_impl; [exact Hx | auto].
Qed.

Lemma by_score_StronglySorted cs : StronglySorted score_ge (JS.sort by_score cs).
Proof.
  eapply StronglySorted_weaken; [| apply (sort_StronglySorted by_score)].
  - intros a b. apply by_score_before.
  - intros a b Hab. apply by_score_before.
    destruct (Qlt_le_dec (score_or_zero a) (score_or_zero b)) as [Hlt|Hle].
    + by apply Qlt_le_weak.
    + exfalso. apply Hab. by apply by_score_before.
  - intros a b c Hab%by_score_before Hbc%by_score_before.
    apply by_score_before. unfold score_ge in *. by eapply Qle_trans.
Qed.

(** Clips with the same score keep the order of the stored list. *)
Lemma by_score_stable (k : Q) cs :
  filter (λ c, Qeq_bool (score_or_zero c) k) (JS.sort by_score cs)
  = filter (λ c, Qeq_bool (score_or_zero c) k) cs.
Proof.
  apply sort_stable. intros a b Ha%Is_true_true%Qeq_bool_iff Hb%Is_true_true%Qeq_bool_iff.
  apply by_score_before. unfold score_ge. rewrite Ha, Hb. apply Qle_refl.
Qed.

Lemma alloc_fresh cs h : h !! (alloc cs h).1 = None.
Proof.
  unfold alloc. cbn [fst]. apply not_elem_of_dom, is_fresh.
Qed.

Lemma alloc_lookup cs h : (alloc cs h).2 !! (alloc cs h).1 = Some cs.
Proof. unfold alloc. cbn [fst snd]. apply lookup_insert_eq. Qed.

Lemma alloc_other cs h k : k ≠ (alloc cs h).1 → (alloc cs h).2 !! k = h !! k.
Proof. intros Hk. unfold alloc in *. cbn [fst snd] in *. by apply lookup_insert_ne. Qed.

Lemma alloc_keeps cs h k : is_Some (h !! k) → (alloc cs h).2 !! k = h !! k.
Proof.
  intros Hk. apply alloc_other. intros ->.
  rewrite alloc_fresh in Hk. by destruct Hk.
Qed.

(** What rendering the gallery returns and what it does to the store. *)
Lemma render_gallery_spec base h l cs :
  h !! l = Some cs →
  let l' := (alloc cs h).1 in
  let shown := JS.sort by_score cs in
  ∃ h',
    render_gallery base (Some l) h = Some (l', imap (card base) shown, h')
    ∧ h' !! l' = Some shown
    ∧ h !! l' = None
    ∧ ∀ k, k ≠ l' → h' !! k = h !! k.
Proof.
  intros Hl l' shown.
  exists (sort_in_place by_score l' (alloc cs h).2).
  assert (sort_in_place by_score l' (alloc cs h).2 !! l' = Some shown) as Hshown.
  { unfold sort_in_place. rewrite lookup_alter_eq.
    subst l'. by rewrite alloc_lookup. }
  split; [| split; [done | split; [apply alloc_fresh |]]].
  - unfold render_gallery, spread. cbn [mbind option_bind].
    rewrite Hl. cbn [mbind option_bind].
    destruct (alloc cs h) as [l0 h1] eqn:Ha. cbn [fst snd] in *.
    subst l'. cbn [fst] in Hshown. by rewrite Hshown.
  - intros k Hk. unfold sort_in_place.
    rewrite lookup_alter_ne by done. by apply alloc_other.
Qed.

End Gallery.

(** C5: the cards of the gallery are those of a list [shown] that is a
    permutation of the clip list in state, in order of non-increasing score
    with a missing score counted as 0; [shown] is a fresh array, and every
    array that was in the store before rendering, the one in state among
    them, keeps its contents. *)
Theorem gallery_sorted_copy (rev : Revision) (base : string) (w : World)
    (l : nat) (cs : list Clip.t) :
  status (st w) = "done" →
  clips (st w) = Some l →
  heap w !! l = Some cs →
  ∃ (shown : list Clip.t) (l' : nat) (h' : store),
    render rev base w = (DoneView (imap (card base) shown), h')
    ∧ shown ≡ₚ cs
    ∧ StronglySorted score_ge shown
    ∧ (∀ c, Clip.score c = None → score_or_zero c = 0%Q)
    ∧ h' !! l' = Some shown
    ∧ heap w !! l' = None
    ∧ h' !! l = Some cs
    ∧ ∀ k, is_Some (heap w !! k) → h' !! k = heap w !! k.
Proof.
  intros Hst Hclips Hl.
  destruct (render_gallery_spec base (heap w) l cs Hl)
    as (h' & Hrender & Hshown & Hfresh & Hother).
  exists (JS.sort by_score cs), (alloc cs (heap w)).1, h'.
  assert (∀ k, is_Some (heap w !! k) → h' !! k = heap w !! k) as Hkeep.
  { intros k Hk. apply Hother. intros ->. rewrite Hfresh in Hk. by destruct Hk. }
  split; [| repeat split].
  - unfold render. rewrite Hst, Hclips, Hrender.
    by rewrite decide_False, decide_False, decide_False, decide_True
      by (done || intros [?|?]; done).
  - apply sort_Permutation.
  - apply by_score_StronglySorted.
  - by intros c Hc; unfold score_or_zero; rewrite Hc.
  - done.
  - done.
  - rewrite Hkeep by eauto. done.
  - done.
Qed.

Lemma gallery_sorted_copy_witness :
  ∃ (shown : list Clip.t) (l' : nat) (h' : store),
    render WithUploads sample_base gallery_world
    = (DoneView (imap (card sample_base) shown), h')
    ∧ shown ≡ₚ sample_clips
    ∧ StronglySorted score_ge shown
    ∧ (∀ c, Clip.score c = None → score_or_zero c = 0%Q)
    ∧ h' !! l' = Some shown
    ∧ heap gallery_world !! l' = None
    ∧ h' !! 2%nat = Some sample_clips
    ∧ ∀ k, is_Some (heap gallery_world !! k) → h' !! k = heap gallery_world !! k.
Proof.
  apply (gallery_sorted_copy WithUploads sample_base gallery_world 2 sample_clips).
  - vm_compute. reflexivity.
  - vm_compute. reflexivity.
  - vm_compute. reflexivity.
Defined.

Example gallery_order :
  Clip.path <$> JS.sort by_score sample_clips
  = ["talk/clip_2.mp4"; "talk/clip_0.mp4"; "talk/clip_1.mp4"].
Proof. reflexivity. Qed.

Example gallery_cards :
  (λ c, (caption c, badge c)) <$> imap (card sample_base) (JS.sort by_score sample_clips)
  = [("The demo", Some (Emerald, 91%Q)); ("Opening", Some (Yellow, 72%Q));
     ("Clip 3", None)].
Proof. vm_compute. reflexivity. Qed.

(** ** Effects and the polling interval *)

Section Effects.

Context (rev : Revision) (base : string).

Implicit Types (w : World) (s old : State) (e : Event).

Lemma commit_unchanged old w :
  status old = status (st w) → jobId old = jobId (st w) →
  commit rev base old w = w.
Proof.
  intros Hs Hj. unfold commit.
  rewrite (decide_True (P := _ ∧ _)) by done.
  destruct rev; [done |]. by rewrite decide_True.
Qed.

Lemma commit_st old w : st (commit rev base old w) = st w.
Proof. unfold commit. by repeat case_match. Qed.

Lemma commit_heap old w : heap (commit rev base old w) = heap w.
Proof. unfold commit. by repeat case_match. Qed.

Lemma commit_timer old w :
  timer (commit rev base old w)
  = if decide (status old = status (st w) ∧ jobId old = jobId (st w))
    then timer w else poll_wanted (st w).
Proof. unfold commit. by repeat case_match. Qed.

Lemma poll_wanted_done s : status s ≠ "processing" → poll_wanted s = None.
Proof.
  intros Hs. unfold poll_wanted. destruct (jobId s); [| done].
  by rewrite decide_False.
Qed.

Lemma poll_wanted_ext s s' :
  status s = status s' → jobId s = jobId s' → poll_wanted s = poll_wanted s'.
Proof. unfold poll_wanted. by intros -> ->. Qed.

Lemma poll_wanted_Some s ivl :
  poll_wanted s = Some ivl →
  status s = "processing" ∧ jobId s = Some (polled_job ivl)
  ∧ JS.truthy (polled_job ivl) = true ∧ period ivl = 2000.
Proof.
  unfold poll_wanted. destruct (jobId s) as [id|]; [| done].
  case_decide; [| done]. destruct (JS.truthy id) eqn:Hid; [| done].
  by intros [= <-].
Qed.

(** A handler never sets an interval; it can only clear the one that fired. *)
Lemma handle_timer e w :
  timer (handle rev base e w) = timer w ∨ timer (handle rev base e w) = None.
Proof.
  destruct e; cbn [handle]; try (repeat case_match; by left).
  (* the interval callback *)
  destruct (timer w) as [ivl|] eqn:Ht; [| by left].
  destruct r as [job|]; [| by left].
  unfold on_job. repeat case_match; (by right) || (left; by rewrite <- Ht).
Qed.

Lemma mount_sound key1 key2 : timer_sound (mount rev base key1 key2).
Proof. unfold timer_sound, mount. destruct rev; intros ivl; by cbn. Qed.

(** The interval, when set, is the one for the job in state, every 2000 ms,
    and [status] is ['processing']. *)
Lemma step_sound w e : timer_sound w → timer_sound (step rev base w e).
Proof.
  intros Hw ivl. unfold step. rewrite commit_timer, commit_st.
  case_decide as Hdeps; [| done].
  destruct Hdeps as [Hs Hj]. intros Ht.
  rewrite <- (poll_wanted_ext _ _ Hs Hj). apply Hw.
  destruct (handle_timer e w) as [H|H]; congruence.
Qed.

Lemma run_sound w es : timer_sound w → timer_sound (run rev base w es).
Proof.
  revert w. induction es as [|e es IH]; intros w Hw; [done |].
  cbn [run foldl]. apply IH. by apply step_sound.
Qed.

(** Without an interval no poll happens. *)
Lemma step_tick_idle w r :
  timer w = None → step rev base w (PollTick r) = w.
Proof.
  intros Ht. unfold step. cbn [handle]. rewrite Ht.
  by apply commit_unchanged.
Qed.

Lemma run_ticks_idle w (rs : list (option Job)) :
  timer w = None → run rev base w (PollTick <$> rs) = w.
Proof.
  intros Ht. induction rs as [|r rs IH]; [done |].
  cbn [fmap list_fmap run foldl]. rewrite step_tick_idle by done. apply IH.
Qed.

(** A poll whose request fails only records the request. *)
Lemma step_tick_failed w ivl :
  timer w = Some ivl →
  step rev base w (PollTick None)
  = send (GET (job_url base (polled_job ivl))) None w.
Proof.
  intros Ht. unfold step. cbn [handle]. rewrite Ht.
  by apply commit_unchanged.
Qed.

Lemma render_send r w : render rev base (send r None w) = render rev base w.
Proof. done. Qed.

End Effects.

(** ** Polling *)

(** C7: a poll whose request fails leaves status, progress, clips, error
    (the whole state), the store and what is rendered as they were; the
    interval stays set, and on a world whose interval is sound it keeps
    polling the same job every 2000 ms. *)
Theorem failed_poll_changes_nothing (rev : Revision) (base : string)
    (w : World) (ivl : Interval) :
  timer_sound w →
  timer w = Some ivl →
  let w' := step rev base w (PollTick None) in
  st w' = st w
  ∧ heap w' = heap w
  ∧ render rev base w' = render rev base w
  ∧ timer w' = Some ivl
  ∧ period ivl = 2000
  ∧ jobId (st w') = Some (polled_job ivl)
  ∧ sent w' = sent w ++ [GET (job_url base (polled_job ivl))].
Proof.
  intros Hw Ht w'. subst w'. rewrite (step_tick_failed rev base w ivl Ht).
  destruct (poll_wanted_Some _ _ (Hw ivl Ht)) as (_ & Hj & _ & Hp).
  by repeat split.
Qed.

Lemma failed_poll_changes_nothing_witness :
  let w' := step WithUploads sample_base polling_world (PollTick None) in
  st w' = st polling_world
  ∧ heap w' = heap polling_world
  ∧ render WithUploads sample_base w' = render WithUploads sample_base polling_world
  ∧ timer w' = Some {| polled_job := "job-1"; period := 2000 |}
  ∧ period {| polled_job := "job-1"; period := 2000 |} = 2000
  ∧ jobId (st w') = Some (polled_job {| polled_job := "job-1"; period := 2000 |})
  ∧ sent w' = sent polling_world
              ++ [GET (job_url sample_base
                         (polled_job {| polled_job := "job-1"; period := 2000 |}))].
Proof.
  apply (failed_poll_changes_nothing WithUploads sample_base polling_world
           {| polled_job := "job-1"; period := 2000 |}).
  - intros ivl H. vm_compute in H. vm_compute. exact H.
  - vm_compute. reflexivity.
Defined.

Section PollResponse.

Context (rev : Revision) (base : string).

Implicit Types (w : World) (job : Job) (ivl : Interval).

Lemma step_tick_response w ivl job :
  timer w = Some ivl →
  step rev base w (PollTick (Some job))
  = commit rev base (st w)
      (on_job job (send (GET (job_url base (polled_job ivl))) None w)).
Proof. intros Ht. unfold step. cbn [handle]. by rewrite Ht. Qed.

Lemma on_job_progress job w : progress (st (on_job job w)) = job_status job.
Proof.
  unfold on_job. repeat case_match; done.
Qed.

Lemma on_job_done job w :
  job_status job = "done" →
  status (st (on_job job w)) = "done"
  ∧ timer (on_job job w) = None
  ∧ error (st (on_job job w)) = error (st w)
  ∧ match job_clips job with
    | Some a =>
        clips (st (on_job job w)) = Some (alloc a (heap w)).1
        ∧ heap (on_job job w) = (alloc a (heap w)).2
    | None => clips (st (on_job job w)) = None ∧ heap (on_job job w) = heap w
    end.
Proof.
  intros Hd. unfold on_job. rewrite decide_True by done.
  destruct (job_clips job) as [a|]; [| done].
  cbn [heap on_state]. by destruct (alloc a (heap w)).
Qed.

Lemma on_job_failed job w :
  job_status job = "failed" →
  status (st (on_job job w)) = "error"
  ∧ timer (on_job job w) = None
  ∧ error (st (on_job job w)) = Some (JS.or_else (job_error job) "Job failed")
  ∧ clips (st (on_job job w)) = clips (st w)
  ∧ heap (on_job job w) = heap w.
Proof.
  intros Hf. unfold on_job.
  rewrite decide_False by (rewrite Hf; discriminate).
  by rewrite decide_True.
Qed.

Lemma on_job_running job w :
  job_status job ≠ "done" → job_status job ≠ "failed" →
  on_job job w = on_state (setProgress (job_status job)) w.
Proof. intros Hd Hf. unfold on_job. by rewrite !decide_False. Qed.

Lemma on_job_sent job w : sent (on_job job w) = sent w.
Proof. unfold on_job. by repeat case_match. Qed.

Lemma commit_sent_prefix old w :
  ∃ more, sent (commit rev base old w) = sent w ++ more.
Proof.
  unfold commit.
  repeat case_match; cbn [sent send with_timer];
    (by exists []; rewrite app_nil_r) || by eexists.
Qed.

End PollResponse.



(** C3: a poll asks for the job by its identifier, and the status of the
    response becomes the progress text (and is what the progress panel
    shows while the job runs).  The clip list is taken from the response
    exactly when the status is ['done'], the error exactly when it is
    ['failed'], with ['Job failed'] standing in for an absent error. *)
Theorem poll_response_handling (rev : Revision) (base : string)
    (w : World) (ivl : Interval) (job : Job) :
  timer w = Some ivl →
  let w' := step rev base w (PollTick (Some job)) in
  (∃ more, sent w' = sent w ++ GET (job_url base (polled_job ivl)) :: more)
  ∧ progress (st w') = job_status job
  ∧ (job_status job = "done" →
       status (st w') = "done"
       ∧ error (st w') = error (st w)
       ∧ match job_clips job with
         | Some a =>
             ∃ l, clips (st w') = Some l ∧ heap w' !! l = Some a
                  ∧ heap w !! l = None
         | None => clips (st w') = None
         end)
  ∧ (job_status job ≠ "done" →
       clips (st w') = clips (st w) ∧ heap w' = heap w)
  ∧ (job_status job = "failed" →
       status (st w') = "error"
       ∧ error (st w') = Some (JS.or_else (job_error job) "Job failed")
       ∧ (job_error job = None → error (st w') = Some "Job failed"))
  ∧ (job_status job ≠ "failed" → error (st w') = error (st w))
  ∧ (job_status job ≠ "done" → job_status job ≠ "failed" →
       status (st w') = status (st w)
       ∧ (status (st w) = "processing" →
            (render rev base w').1
            = WorkingView (render_progress rev "processing" (job_status job)))).
Proof.
  intros Ht w'. subst w'. rewrite (step_tick_response rev base w ivl job Ht).
  set (w0 := send (GET (job_url base (polled_job ivl))) None w).
  rewrite !commit_st, !commit_heap.
  split; [| split; [apply on_job_progress |]].
  { destruct (commit_sent_prefix rev base (st w) (on_job job w0)) as [more ->].
    rewrite on_job_sent. subst w0. cbn [sent send].
    exists more. by rewrite <- app_assoc. }
  split; [| split; [| split; [| split]]].
  - intros Hd. destruct (on_job_done job w0 Hd) as (Hs & _ & He & Hc).
    split; [done |]. split; [done |].
    destruct (job_clips job) as [a|]; [| by destruct Hc].
    destruct Hc as [-> ->]. exists (alloc a (heap w0)).1.
    split; [done |]. split; [apply alloc_lookup | apply alloc_fresh].
  - intros Hd. destruct (decide (job_status job = "failed")) as [Hf|Hf].
    + by destruct (on_job_failed job w0 Hf) as (_ & _ & _ & -> & ->).
    + by rewrite on_job_running.
  - intros Hf. destruct (on_job_failed job w0 Hf) as (Hs & _ & He & _).
    split; [done |]. split; [done |]. intros Hnone. by rewrite He, Hnone.
  - intros Hf. destruct (decide (job_status job = "done")) as [Hd|Hd].
    + by destruct (on_job_done job w0 Hd) as (_ & _ & -> & _).
    + by rewrite on_job_running.
  - intros Hd Hf. rewrite on_job_running by done. split; [done |].
    intros Hproc. unfold render. rewrite commit_st. cbn [st on_state w0 send].
    cbn [status setProgress progress]. rewrite Hproc.
    rewrite decide_False by discriminate.
    by rewrite decide_True by by right.
Qed.

Lemma poll_response_handling_witness :
  let job := {| job_status := "failed"; job_clips := None; job_error := None |} in
  let w' := step WithUploads sample_base polling_world (PollTick (Some job)) in
  progress (st w') = "failed" ∧ error (st w') = Some "Job failed".
Proof.
  intros job w'.
  pose proof (poll_response_handling WithUploads sample_base polling_world
                {| polled_job := "job-1"; period := 2000 |} job
                ltac:(vm_compute; reflexivity)) as (_ & Hp & _ & _ & Hf & _).
  split; [exact Hp |].
  exact (proj2 (proj2 (Hf eq_refl)) eq_refl).
Defined.

Example poll_running_shows_progress :
  (render WithUploads sample_base
     (step WithUploads sample_base polling_world
        (PollTick (Some {| job_status := "transcribing: 40%";
                           job_clips := None; job_error := None |})))).1
  = WorkingView
      {| spinner := SpinnerText "40%";
         heading := "Processing...";
         detail := Bar "transcribing" (Some "40%") (WidthStr "40%") |}.
Proof. vm_compute. reflexivity. Qed.

Example poll_failed_with_message :
  error (st (step WithUploads sample_base polling_world
               (PollTick (Some {| job_status := "failed"; job_clips := None;
                                  job_error := Some "quota exceeded" |}))))
  = Some "quota exceeded".
Proof. vm_compute. reflexivity. Qed.

Example gallery_world_shows_done :
  status (st gallery_world) = "done" ∧ timer gallery_world = None
  ∧ sent gallery_world
    = [ GET "http://localhost:8000/api/uploads";
        POST "http://localhost:8000/api/process?path=clipper_output%2Fuploads%2Ftalk%201.mp4&gemini_api_key=AIza-example" None;
        GET "http://localhost:8000/api/uploads";
        GET "http://localhost:8000/api/jobs/job-1";
        GET "http://localhost:8000/api/uploads" ].
Proof. vm_compute. repeat split. Qed.

(** Every world the component can be in has a sound interval. *)
Lemma reachable_sound (rev : Revision) (base key1 key2 : string) (es : list Event) :
  timer_sound (run rev base (mount rev base key1 key2) es).
Proof. apply run_sound, mount_sound. Qed.

(** [jobId] is never reset: asking for new clips after a finished job sets
    the interval for the previous job until the new identifier arrives. *)
Example previous_job_polled_until_reply :
  timer (run WithUploads sample_base gallery_world
           [ProcessNewVideo; GenerateClips 0])
  = Some {| polled_job := "job-1"; period := 2000 |}
  ∧ timer (run WithUploads sample_base gallery_world
             [ProcessNewVideo; GenerateClips 0; ProcessReplied (inl (Some "job-2"))])
    = Some {| polled_job := "job-2"; period := 2000 |}.
Proof. split; vm_compute; reflexivity. Qed.

(** ** Cached uploads *)

Section CachedUploads.

Context (base : string).

Implicit Types (w : World) (u : Upload.t nat).

Lemma step_view_clips w i u n :
  uploads (st w) !! i = Some u →
  status (st w) = "idle" →
  cached_clips (heap w) u = Some n →
  step WithUploads base w (ViewClips i)
  = with_timer None
      (send (GET (uploads_url base)) (Some CallUploads)
         (on_state (setStatus "done")
            (on_state (setClips (Upload.clips u)) w))).
Proof.
  intros Hu Hidle Hn. unfold step. cbn [handle]. rewrite Hu, Hn.
  rewrite decide_True by done. unfold commit.
  cbn [st on_state status setStatus setClips send with_timer].
  rewrite Hidle.
  rewrite (decide_False (P := _ ∧ _)) by (intros [H _]; discriminate H).
  rewrite decide_False by discriminate.
  by rewrite poll_wanted_done by discriminate.
Qed.

Lemma step_generate_clips w i u :
  uploads (st w) !! i = Some u →
  status (st w) = "idle" →
  step WithUploads base w (GenerateClips i)
  = with_timer (poll_wanted (setStatus "processing" (st w)))
      (send (GET (uploads_url base)) (Some CallUploads)
         (send (POST (process_url WithUploads base (st w) (Upload.path u)) None)
            (Some CallProcess)
            (on_state (setStatus "processing") w))).
Proof.
  intros Hu Hidle. unfold step. cbn [handle]. rewrite Hu.
  rewrite decide_True by done. unfold commit.
  cbn [st on_state status setStatus send with_timer].
  rewrite Hidle.
  rewrite (decide_False (P := _ ∧ _)) by (intros [H _]; discriminate H).
  by rewrite decide_False by discriminate.
Qed.

Lemma process_url_not_upload rev s path :
  process_url rev base s path ≠ upload_url base.
Proof.
  unfold process_url, upload_url. intros H.
  apply (inj (String.app base)) in H. vm_compute in H. discriminate H.
Qed.

Lemma uploads_url_not_upload : uploads_url base ≠ upload_url base.
Proof.
  unfold uploads_url, upload_url. intros H.
  apply (inj (String.app base)) in H. vm_compute in H. discriminate H.
Qed.

End CachedUploads.

(** C6, as stated, fails: viewing the cached clips changes [status], and the
    effect that depends on [status] fetches the upload list again. *)
Lemma view_clips_refetches_uploads :
  status (st browsing_world) = "idle"
  ∧ (∃ u, uploads (st browsing_world) !! 0%nat = Some u
          ∧ cached_clips (heap browsing_world) u = Some 3%nat)
  ∧ sent (step WithUploads sample_base browsing_world (ViewClips 0))
    = sent browsing_world ++ [GET "http://localhost:8000/api/uploads"]
  ∧ sent (step WithUploads sample_base browsing_world (ViewClips 0))
    ≠ sent browsing_world.
Proof.
  split; [vm_compute; reflexivity |].
  split; [eexists; split; vm_compute; reflexivity |].
  split; [vm_compute; reflexivity |].
  vm_compute. discriminate.
Qed.

(** C6 (amended): with the upload list shown, "View N Clips" sends no POST
    and starts no job; the one request it causes is the refresh
    [GET /api/uploads] of the upload list.  Asking to regenerate sends
    exactly one POST, to the process endpoint with the upload's stored path,
    followed by the same refresh.  Neither sends the video file or addresses
    the upload endpoint. *)
Theorem cached_uploads_are_not_resubmitted (base : string) (w : World)
    (i : nat) (u : Upload.t nat) :
  uploads (st w) !! i = Some u →
  status (st w) = "idle" →
  (∀ n, cached_clips (heap w) u = Some n →
     let w' := step WithUploads base w (ViewClips i) in
     sent w' = sent w ++ [GET (uploads_url base)]
     ∧ awaiting w' = awaiting w ++ [CallUploads]
     ∧ jobId (st w') = jobId (st w)
     ∧ timer w' = None
     ∧ status (st w') = "done"
     ∧ clips (st w') = Upload.clips u
     ∧ heap w' = heap w)
  ∧ (let w' := step WithUploads base w (GenerateClips i) in
     sent w' = sent w
               ++ [POST (process_url WithUploads base (st w) (Upload.path u)) None;
                   GET (uploads_url base)]
     ∧ awaiting w' = awaiting w ++ [CallProcess; CallUploads])
  ∧ (∀ e r, e = ViewClips i ∨ e = GenerateClips i →
       sent (step WithUploads base w e) = sent w ++ r →
       Forall (λ q, carries_file q = false ∧ request_url q ≠ upload_url base) r).
Proof.
  intros Hu Hidle.
  assert (let w' := step WithUploads base w (GenerateClips i) in
          sent w' = sent w
                    ++ [POST (process_url WithUploads base (st w) (Upload.path u)) None;
                        GET (uploads_url base)]
          ∧ awaiting w' = awaiting w ++ [CallProcess; CallUploads]) as Hgen.
  { intros w'. subst w'. rewrite (step_generate_clips base w i u Hu Hidle).
    cbn [sent awaiting send with_timer on_state option_list].
    by rewrite <- !app_assoc. }
  split; [| split; [exact Hgen |]].
  - intros n Hn w'. subst w'. by rewrite (step_view_clips base w i u n Hu Hidle Hn).
  - intros e r [-> | ->] Hr.
    + destruct (cached_clips (heap w) u) as [n|] eqn:Hn.
      * rewrite (step_view_clips base w i u n Hu Hidle Hn) in Hr.
        cbn [sent send with_timer on_state] in Hr.
        apply app_inv_head in Hr as <-.
        repeat constructor. apply uploads_url_not_upload.
      * assert (step WithUploads base w (ViewClips i) = w) as Hsame.
        { unfold step. cbn [handle]. rewrite Hu, Hn.
          rewrite decide_True by done. by apply commit_unchanged. }
        rewrite Hsame in Hr. rewrite <- (app_nil_r (sent w)) in Hr at 1.
        apply app_inv_head in Hr as <-. constructor.
    + destruct Hgen as [Hsent _]. rewrite Hsent in Hr.
      apply app_inv_head in Hr as <-.
      repeat constructor;
        [apply process_url_not_upload | apply uploads_url_not_upload].
Qed.

Lemma cached_uploads_are_not_resubmitted_witness :
  let u := {| Upload.path := "clipper_output/uploads/talk 1.mp4";
              Upload.filename := "talk 1.mp4";
              Upload.created_at := 1730000000;
              Upload.thumbnail := Some "thumbs/talk.jpg";
              Upload.has_transcript := true;
              Upload.clips := Some 1%nat |} in
  let w' := step WithUploads sample_base browsing_world (ViewClips 0) in
  sent w' = sent browsing_world ++ [GET (uploads_url sample_base)]
  ∧ awaiting w' = awaiting browsing_world ++ [CallUploads]
  ∧ jobId (st w') = jobId (st browsing_world)
  ∧ timer w' = None
  ∧ status (st w') = "done"
  ∧ clips (st w') = Upload.clips u
  ∧ heap w' = heap browsing_world.
Proof.
  intros u.
  apply (proj1 (cached_uploads_are_not_resubmitted sample_base browsing_world
                  0 u ltac:(vm_compute; reflexivity) ltac:(vm_compute; reflexivity))
           3%nat).
  vm_compute. reflexivity.
Defined.

(** ** Scores and badges *)

Section Scores.

(** The cascade of the badge picks the class whose range holds the score. *)
Lemma Qle_bool_false (a b : Q) : Qle_bool a b = false ↔ (b < a)%Q.
Proof.
  split.
  - intros H. apply Qnot_le_lt. intros Hle%Qle_bool_iff. congruence.
  - intros Hlt. destruct (Qle_bool a b) eqn:E; [| done].
    apply Qle_bool_iff in E. exfalso. by apply (Qlt_not_le _ _ Hlt).
Qed.

Local Ltac class_case k :=
  destruct k; cbn [in_class]; split; intros Hc;
  try discriminate Hc; try reflexivity;
  solve [lra | split; lra | exfalso; lra].

Lemma badge_class_in_class (s : Q) (k : BadgeClass) :
  in_class k s ↔ badge_class s = k.
Proof.
  unfold badge_class.
  destruct (Qle_bool 80 s) eqn:H80.
  - apply Qle_bool_iff in H80. class_case k.
  - apply Qle_bool_false in H80.
    destruct (Qle_bool 60 s) eqn:H60.
    + apply Qle_bool_iff in H60. class_case k.
    + apply Qle_bool_false in H60. class_case k.
Qed.

Lemma badge_class_unique (s : Q) : exists! k, in_class k s.
Proof.
  exists (badge_class s). split; [by apply badge_class_in_class |].
  intros k Hk. by apply badge_class_in_class in Hk.
Qed.

Context {segment crop : Type}.
Context (acquire : unit → string + unit) (transcribe : unit → string + string).
Context (analyze : string → string + list segment).
Context (determine_crop : segment → string + crop).
Context (render_clip : segment → crop → string + Pipeline.clip).

(** A run that ends [done] produced at least one clip and left its clips
    with the Upload. *)
Lemma execute_done (u u' : Pipeline.upload) (produced : list Pipeline.clip) :
  Pipeline.execute acquire transcribe analyze determine_crop render_clip u
  = (u', Pipeline.Done produced) →
  produced ≠ [] ∧ Pipeline.cached u' = produced.
Proof.
  unfold Pipeline.execute. intros H.
  repeat (case_match; try discriminate).
  all: by injection H as <- <-.
Qed.

End Scores.

(** C4: a clip's score, when present, lies in [[0, 100]]; a run of the
    pipeline that succeeds on an Upload without cached clips yields a
    non-empty clip list whose scores all lie in that range; and for every
    score the badge takes exactly one of its three classes: at least 80, at
    least 60 (and below 80), below 60. *)
Theorem scores_bounded_and_badged :
  (∀ (c : Pipeline.clip) (s : Q),
     Clip.score (Pipeline.wire c) = Some s → (0 <= s <= 100)%Q)
  ∧ (∀ (segment crop : Type)
       (acquire : unit → string + unit) (transcribe : unit → string + string)
       (analyze : string → string + list segment)
       (determine_crop : segment → string + crop)
       (render_clip : segment → crop → string + Pipeline.clip)
       (u u' : Pipeline.upload) (produced : list Pipeline.clip),
       Pipeline.cached u = [] →
       Pipeline.execute acquire transcribe analyze determine_crop render_clip u
       = (u', Pipeline.Done produced) →
       produced ≠ []
       ∧ Pipeline.cached u' = produced
       ∧ Forall (λ c : Clip.t, ∀ s, Clip.score c = Some s → (0 <= s <= 100)%Q)
           (Pipeline.wire <$> produced))
  ∧ (∀ (s : Q) (base : string) (idx : nat) (c : Clip.t),
       Clip.score c = Some s →
       badge (card base idx c) = Some (badge_class s, s)
       ∧ (∀ k, in_class k s ↔ badge_class s = k)
       ∧ exists! k, in_class k s).
Proof.
  split; [| split].
  - intros c s. apply Pipeline.score_bounded.
  - intros segment crop acquire transcribe analyze determine_crop render_clip
      u u' produced _ Hrun.
    destruct (execute_done _ _ _ _ _ _ _ _ Hrun) as [Hne Hc].
    split; [done |]. split; [done |].
    apply Forall_fmap, Forall_forall. intros c _ s. apply Pipeline.score_bounded.
  - intros s base idx c Hs. split; [| split].
    + unfold card. cbn [badge]. by rewrite Hs.
    + intros k. apply badge_class_in_class.
    + apply badge_class_unique.
Qed.

Lemma scores_bounded_and_badged_witness :
  (sample_produced ≠ []
   ∧ Pipeline.cached (sample_execute sample_source).1 = sample_produced
   ∧ Forall (λ c : Clip.t, ∀ s, Clip.score c = Some s → (0 <= s <= 100)%Q)
       (Pipeline.wire <$> sample_produced))
  ∧ (badge (card sample_base 0 (Pipeline.wire sample_best))
     = Some (badge_class 85, 85%Q)
     ∧ (∀ k, in_class k 85 ↔ badge_class 85 = k)
     ∧ exists! k, in_class k 85).
Proof.
  split.
  - apply (proj1 (proj2 scores_bounded_and_badged) _ _
             (λ _, inr ()) (λ _, inr "welcome everyone")
             (λ _, inr sample_produced)
             (λ _ : Pipeline.clip, inr ())
             (λ (sg : Pipeline.clip) (_ : unit), inr sg)
             sample_source (sample_execute sample_source).1 sample_produced).
    + reflexivity.
    + reflexivity.
  - apply (proj2 (proj2 scores_bounded_and_badged) 85%Q sample_base 0%nat).
    reflexivity.
Defined.

Example badge_boundaries :
  badge_class 100 = Emerald ∧ badge_class 80 = Emerald
  ∧ badge_class (159 # 2) = Yellow ∧ badge_class 60 = Yellow
  ∧ badge_class 59 = Slate ∧ badge_class 0 = Slate.
Proof. repeat split. Qed.

Example execute_without_segments :
  (Pipeline.execute (λ _, inr ()) (λ _, inr "welcome everyone")
     (λ _, inr ([] : list Pipeline.clip))
     (λ _ : Pipeline.clip, inr ())
     (λ (sg : Pipeline.clip) (_ : unit), inr sg) sample_source).2
  = Pipeline.Failed "no clips were produced".
Proof. reflexivity. Qed.

(** * Further properties of the component *)

(** ** The base URL always has a scheme *)

(** X1: whatever the configuration, the base URL the client uses is not
    empty and starts with ['http'], and normalising it again changes
    nothing. *)
Theorem API_BASE_has_scheme (env : option string) :
  JS.truthy (API_BASE env) = true
  ∧ JS.startsWith (API_BASE env) "http" = true
  ∧ API_BASE (Some (API_BASE env)) = API_BASE env.
Proof.
  destruct env as [[|c b]|]; [by vm_compute | | by vm_compute].
  rewrite API_BASE_nonempty.
  destruct (JS.startsWith (String c b) "http") eqn:Hp.
  - split; [done |]. split; [done |]. by rewrite API_BASE_nonempty, Hp.
  - rewrite !app_cons, app_empty_l.
    split; [done |]. split; [done |]. by rewrite API_BASE_nonempty.
Qed.

(** ** Trimming *)

Section Trim.

Implicit Types (s t : string) (c : ascii).

Lemma trimEnd_blank s : JS.trimEnd s = "" ↔ all_chars JS.is_space s = true.
Proof.
  induction s as [|c s IH]; [done |]. cbn [JS.trimEnd all_chars].
  destruct (JS.trimEnd s) as [|c' t] eqn:Ht.
  - destruct (JS.is_space c); cbn [andb]; [| by split].
    split; [intros _; by apply IH | done].
  - split; [done |]. intros [_ Hs]%andb_prop. by apply IH in Hs.
Qed.

Lemma skip_spaces_blank s :
  JS.skip_spaces s = "" ↔ all_chars JS.is_space s = true.
Proof.
  induction s as [|c s IH]; [done |]. cbn [JS.skip_spaces all_chars].
  destruct (JS.is_space c); cbn [andb]; [done | by split].
Qed.

Lemma skip_spaces_head s c t :
  JS.skip_spaces s = String c t → JS.is_space c = false.
Proof.
  induction s as [|c' s IH]; [done |]. cbn [JS.skip_spaces].
  destruct (JS.is_space c') eqn:Hc; [done |]. by intros [= <- <-].
Qed.

Lemma skip_spaces_idem s : JS.skip_spaces (JS.skip_spaces s) = JS.skip_spaces s.
Proof.
  induction s as [|c s IH]; [done |]. cbn [JS.skip_spaces].
  destruct (JS.is_space c) eqn:Hc; [done |]. cbn [JS.skip_spaces]. by rewrite Hc.
Qed.

Lemma trimEnd_head c s :
  JS.is_space c = false → ∃ t, JS.trimEnd (String c s) = String c t.
Proof.
  intros Hc. cbn [JS.trimEnd]. rewrite Hc. destruct (JS.trimEnd s); eauto.
Qed.



Lemma trim_blank s : JS.truthy (JS.trim s) = false ↔ all_chars JS.is_space s = true.
Proof.
  unfold JS.trim. rewrite <- skip_spaces_blank. split.
  - intros Ht. destruct (JS.skip_spaces s) as [|c t] eqn:Hs; [done |].
    pose proof (skip_spaces_head _ _ _ Hs) as Hc.
    destruct (trimEnd_head c t Hc) as [t' Ht']. by rewrite Ht' in Ht.
  - by intros ->.
Qed.

End Trim.

(** ** The API-key dialog *)

Section KeyDialog.

Context (rev : Revision).

Implicit Types (s : KeyModal.state) (ls : gmap string string).

Lemma items_differ : KeyModal.gemini_item ≠ KeyModal.openai_item.
Proof. discriminate. Qed.

(** What a save that goes through leaves in [localStorage]. *)
Lemma save_stores s ls :
  KeyModal.showKeyModal s = true →
  KeyModal.save_disabled rev s = false →
  let ls' := (KeyModal.step rev (s, ls) KeyModal.Save).2 in
  (KeyModal.step rev (s, ls) KeyModal.Save).1
  = {| KeyModal.geminiKey := KeyModal.geminiKey s;
       KeyModal.openaiKey := KeyModal.openaiKey s;
       KeyModal.showKeyModal := false |}
  ∧ ls' !! KeyModal.gemini_item = Some (JS.trim (KeyModal.geminiKey s))
  ∧ JS.truthy (JS.trim (KeyModal.geminiKey s)) = true
  ∧ ls' !! KeyModal.openai_item
    = match rev with
      | Frontend => Some (JS.trim (KeyModal.openaiKey s))
      | WithUploads => ls !! KeyModal.openai_item
      end
  ∧ (rev = Frontend → JS.truthy (JS.trim (KeyModal.openaiKey s)) = true)
  ∧ ∀ k, k ≠ KeyModal.gemini_item → k ≠ KeyModal.openai_item → ls' !! k = ls !! k.
Proof.
  intros Hshown Hen ls'. subst ls'. cbn [KeyModal.step].
  rewrite Hshown, Hen. cbn [andb negb fst snd].
  unfold KeyModal.save_disabled in Hen.
  destruct rev.
  - apply orb_false_elim in Hen as [Hg%negb_false_iff Ho%negb_false_iff].
    split; [done |].
    split; [by rewrite lookup_insert_ne, lookup_insert_eq by discriminate |].
    split; [done |]. split; [by rewrite lookup_insert_eq |]. split; [done |].
    intros k Hk1 Hk2. by rewrite !lookup_insert_ne.
  - apply negb_false_iff in Hen.
    split; [done |]. split; [by rewrite lookup_insert_eq |].
    split; [done |].
    split; [by rewrite lookup_insert_ne by discriminate |]. split; [done |].
    intros k Hk1 Hk2. by rewrite lookup_insert_ne.
Qed.





Lemma step_hidden_justified s ls e :
  hidden_justified rev s ls →
  hidden_justified rev (KeyModal.step rev (s, ls) e).1 (KeyModal.step rev (s, ls) e).2.
Proof.
  intros H.
  destruct e; cbn [KeyModal.step].
  - by left.
  - destruct (KeyModal.showKeyModal s) eqn:Hs; [by left | done].
  - destruct rev, (KeyModal.showKeyModal s) eqn:Hs; (by left) || done.
  - destruct (KeyModal.showKeyModal s) eqn:Hs; [| done].
    destruct (KeyModal.save_disabled rev s) eqn:Hen; cbn [andb negb fst snd];
      [by left |].
    right.
    destruct (save_stores s ls Hs Hen) as (_ & Hg & Hgt & Ho & Hot & _).
    cbn [KeyModal.step] in Hg, Ho. rewrite Hs, Hen in Hg, Ho.
    cbn [andb negb snd] in Hg, Ho.
    unfold KeyModal.init. cbn [KeyModal.showKeyModal].
    rewrite Hg. cbn [JS.falsy]. rewrite Hgt. destruct rev; [| done].
    rewrite Ho. cbn [JS.falsy]. by rewrite Hot.
Qed.

Lemma run_hidden_justified s ls es :
  hidden_justified rev s ls →
  hidden_justified rev (KeyModal.run rev (s, ls) es).1 (KeyModal.run rev (s, ls) es).2.
Proof.
  revert s ls. induction es as [|e es IH]; intros s ls H; [done |].
  cbn [KeyModal.run foldl].
  pose proof (step_hidden_justified s ls e H) as H1.
  destruct (KeyModal.step rev (s, ls) e) as [s1 ls1]. by apply IH.
Qed.

End KeyDialog.



(** X3: whatever [localStorage] held at mount and whatever happens in the
    dialog, the dialog is hidden only when a reload would not show it
    either, that is, when every key the revision needs is stored and
    non-empty.  The dialog has no way out but a save that goes through. *)
Theorem dialog_hidden_only_with_keys (rev : Revision) (ls : gmap string string)
    (es : list KeyModal.event) :
  KeyModal.showKeyModal (KeyModal.run rev (KeyModal.init rev ls, ls) es).1 = true
  ∨ KeyModal.showKeyModal
      (KeyModal.init rev (KeyModal.run rev (KeyModal.init rev ls, ls) es).2)
    = false.
Proof.
  apply (run_hidden_justified rev).
  unfold hidden_justified.
  destruct (KeyModal.showKeyModal (KeyModal.init rev ls)); auto.
Qed.



Example key_dialog_session :
  let x := KeyModal.run Frontend (KeyModal.init Frontend ∅, ∅)
             [KeyModal.TypeGemini " AIza-example"; KeyModal.Save;
              KeyModal.TypeOpenai "sk-example "; KeyModal.Save] in
  x.1 = {| KeyModal.geminiKey := " AIza-example";
           KeyModal.openaiKey := "sk-example ";
           KeyModal.showKeyModal := false |}
  ∧ x.2 !! "clipper_gemini_key" = Some "AIza-example"
  ∧ x.2 !! "clipper_openai_key" = Some "sk-example"
  ∧ KeyModal.header_label Frontend x.1 = "Update API Keys".
Proof. vm_compute. repeat split. Qed.

Example key_dialog_blank_key_keeps_dialog :
  KeyModal.run WithUploads (KeyModal.init WithUploads ∅, ∅)
    [KeyModal.TypeGemini "   "; KeyModal.Save]
  = ({| KeyModal.geminiKey := "   "; KeyModal.openaiKey := "";
        KeyModal.showKeyModal := true |}, ∅).
Proof. vm_compute. reflexivity. Qed.

(** ** Invariants of the component *)

Section Invariants.

Context (rev : Revision) (base : string).

Implicit Types (w : World) (e : Event) (es : list Event) (h : store).

Local Ltac known := unfold known_status; solve [auto 10].

Lemma run_snoc w es e :
  run rev base w (es ++ [e]) = step rev base (run rev base w es) e.
Proof. unfold run. by rewrite foldl_app. Qed.

(** An invariant of [step] that holds after mounting holds in every world
    the component reaches. *)
Lemma run_invariant (P : World → Prop) w es :
  (∀ w' e', P w' → P (step rev base w' e')) → P w → P (run rev base w es).
Proof.
  intros Hstep. revert w. induction es as [|e es IH]; intros w Hw; [done |].
  cbn [run foldl]. apply IH. by apply Hstep.
Qed.

Lemma on_job_status job w :
  status (st (on_job job w)) = status (st w)
  ∨ (status (st (on_job job w)) = "done" ∧ timer (on_job job w) = None)
  ∨ (status (st (on_job job w)) = "error" ∧ timer (on_job job w) = None).
Proof.
  destruct (decide (job_status job = "done")) as [Hd|Hd].
  { destruct (on_job_done job w Hd) as (-> & -> & _); auto. }
  destruct (decide (job_status job = "failed")) as [Hf|Hf].
  { destruct (on_job_failed job w Hf) as (-> & -> & _); auto. }
  left. by rewrite on_job_running.
Qed.

Lemma handle_status e w :
  known_status (status (st w)) →
  known_status (status (st (handle rev base e w))).
Proof.
  intros Hw. destruct e; cbn [handle];
    try solve [repeat case_match; (done || known)].
  destruct (timer w) as [ivl|]; [| done]. destruct r as [job|]; [| done].
  destruct (on_job_status job (send (GET (job_url base (polled_job ivl))) None w))
    as [-> | [[-> _] | [-> _]]]; (done || known).
Qed.

Lemma step_status w e :
  known_status (status (st w)) → known_status (status (st (step rev base w e))).
Proof. intros Hw. unfold step. rewrite commit_st. by apply handle_status. Qed.

Lemma mount_st key1 key2 :
  ∃ l, st (mount rev base key1 key2)
       = {| file := None; status := "idle"; jobId := None;
            progress := "waiting"; clips := Some l; error := None;
            uploads := []; apiKey := key1; openaiKey := key2 |}
       ∧ heap (mount rev base key1 key2) = {[ l := [] ]}
       ∧ timer (mount rev base key1 key2) = None
       ∧ sent (mount rev base key1 key2) = refresh rev base.
Proof.
  unfold mount, alloc. exists (fresh (dom (∅ : store))).
  rewrite insert_empty. by destruct rev.
Qed.

(** The handler of a tick clears the interval only on a terminal status. *)
Lemma handle_timer_cleared e w :
  timer (handle rev base e w) = timer w
  ∨ (timer (handle rev base e w) = None
     ∧ (status (st (handle rev base e w)) = "done"
        ∨ status (st (handle rev base e w)) = "error")).
Proof.
  destruct e; cbn [handle]; try (repeat case_match; by left).
  destruct (timer w) as [ivl|] eqn:Ht; [| by left].
  destruct r as [job|]; [| by left].
  set (w0 := send _ None w).
  destruct (decide (job_status job = "done")) as [Hd|Hd].
  { destruct (on_job_done job w0 Hd) as (-> & -> & _). right. auto. }
  destruct (decide (job_status job = "failed")) as [Hf|Hf].
  { destruct (on_job_failed job w0 Hf) as (-> & -> & _). right. auto. }
  left. by rewrite on_job_running.
Qed.

Lemma step_timer_exact w e :
  timer w = poll_wanted (st w) →
  timer (step rev base w e) = poll_wanted (st (step rev base w e)).
Proof.
  intros Hw. unfold step. rewrite commit_timer, commit_st.
  case_decide as Hdeps; [| done]. destruct Hdeps as [Hs Hj].
  rewrite <- (poll_wanted_ext _ _ Hs Hj).
  destruct (handle_timer_cleared e w) as [-> | [Hnone Hterm]]; [done |].
  rewrite Hnone. symmetry. apply poll_wanted_done. rewrite Hs.
  destruct Hterm as [-> | ->]; discriminate.
Qed.

(** Handlers only add arrays to the store. *)
Lemma alloc_subseteq a h : h ⊆ (alloc a h).2.
Proof.
  unfold alloc. cbn [snd]. apply insert_subseteq, not_elem_of_dom, is_fresh.
Qed.

Lemma intern_subseteq data h : h ⊆ (intern data h).2.
Proof.
  revert h. induction data as [|u data IH]; intros h; [done |].
  cbn [intern].
  destruct (Upload.clips u) as [a|].
  - pose proof (alloc_subseteq a h) as Ha.
    destruct (alloc a h) as [l h1]. cbn [snd] in Ha.
    pose proof (IH h1) as H1. destruct (intern data h1) as [us h2].
    cbn [snd] in *. by etrans.
  - pose proof (IH h) as H1. by destruct (intern data h) as [us h2].
Qed.

Lemma on_job_heap job w : heap w ⊆ heap (on_job job w).
Proof.
  unfold on_job. repeat case_match; cbn [heap on_state with_timer with_heap];
    try done.
  match goal with H : alloc ?a ?h = (_, ?h') |- _ =>
    pose proof (alloc_subseteq a h) as Ha; by rewrite H in Ha end.
Qed.

Lemma handle_heap e w : heap w ⊆ heap (handle rev base e w).
Proof.
  destruct e; cbn [handle]; try (repeat case_match; done).
  - (* the upload list arrives *)
    case_decide; [| done]. destruct data as [arr|]; [| done].
    pose proof (intern_subseteq arr (heap (settle CallUploads w))) as Hi.
    by destruct (intern arr (heap (settle CallUploads w))).
  - (* a poll *)
    destruct (timer w); [| done]. destruct r as [job|]; [| done].
    apply (on_job_heap job (send _ None w)).
  - (* a new, empty clip array *)
    case_decide; [| done].
    pose proof (alloc_subseteq [] (heap w)) as Ha.
    by destruct (alloc [] (heap w)).
Qed.

Lemma step_heap w e : heap w ⊆ heap (step rev base w e).
Proof. unfold step. rewrite commit_heap. apply handle_heap. Qed.

Lemma run_heap w es : heap w ⊆ heap (run rev base w es).
Proof.
  revert w. induction es as [|e es IH]; intros w; [done |].
  cbn [run foldl]. etrans; [apply step_heap | apply IH].
Qed.

Lemma render_heap w : heap w ⊆ (render rev base w).2.
Proof.
  unfold render. repeat case_decide; try done.
  destruct (clips (st w)) as [l|]; [| done].
  destruct (heap w !! l) as [cs|] eqn:Hl.
  - destruct (render_gallery_spec base (heap w) l cs Hl)
      as (h' & -> & _ & Hfresh & Hother).
    cbn [snd]. apply map_subseteq_spec. intros k a Hk.
    rewrite Hother; [done |]. intros ->. congruence.
  - unfold render_gallery, spread. cbn [mbind option_bind]. by rewrite Hl.
Qed.

(** Requests. *)
Lemma commit_sent old w :
  Forall (known_request base) (sent w) →
  Forall (known_request base) (sent (commit rev base old w)).
Proof.
  intros Hw. unfold commit.
  repeat case_match; cbn [sent send with_timer]; try done;
    apply Forall_app; (split; [done |]); repeat constructor; by left.
Qed.

Lemma handle_sent e w :
  Forall (known_request base) (sent w) →
  Forall (known_request base) (sent (handle rev base e w)).
Proof.
  intros Hw.
  destruct e; cbn [handle]; repeat case_match; try done;
    rewrite ?on_job_sent; cbn [sent send on_state settle with_heap];
    try done;
    (apply Forall_app; split; [done |]; constructor; [| constructor]; cbn;
     first [done | right; by eexists | by repeat eexists]).
Qed.

Lemma step_sent w e :
  Forall (known_request base) (sent w) →
  Forall (known_request base) (sent (step rev base w e)).
Proof. intros Hw. unfold step. by apply commit_sent, handle_sent. Qed.

End Invariants.

Section Screens.

Context (rev : Revision) (base : string).

Implicit Types (w : World) (e : Event) (es : list Event).








End Screens.

(** X5: in every world the component reaches after mounting, [status] is
    one of ['idle'], ['uploading'], ['processing'], ['done'], ['error']. *)
Theorem status_always_known (rev : Revision) (base key1 key2 : string)
    (es : list Event) :
  known_status (status (st (run rev base (mount rev base key1 key2) es))).
Proof.
  apply run_invariant.
  - intros w e. apply step_status.
  - destruct (mount_st rev base key1 key2) as (l & -> & _).
    unfold known_status. auto.
Qed.



(** X7: in every world the component reaches after mounting, the polling
    interval is set exactly when [status] is ['processing'] and [jobId] is
    a non-empty string; it then polls that job every 2000 ms. *)
Theorem polling_exactly_while_processing (rev : Revision)
    (base key1 key2 : string) (es : list Event) :
  let w := run rev base (mount rev base key1 key2) es in
  timer w = poll_wanted (st w)
  ∧ ∀ id,
      timer w = Some {| polled_job := id; period := 2000 |}
      ↔ status (st w) = "processing" ∧ jobId (st w) = Some id
        ∧ JS.truthy id = true.
Proof.
  intros w.
  assert (timer w = poll_wanted (st w)) as Hexact.
  { subst w. apply (run_invariant rev base (λ w, timer w = poll_wanted (st w))).
    - intros w e. apply step_timer_exact.
    - by destruct (mount_st rev base key1 key2) as (l & -> & _ & -> & _). }
  split; [done |]. intros id. rewrite Hexact. split.
  - intros H. destruct (poll_wanted_Some _ _ H) as (? & ? & ? & _). auto.
  - intros (Hs & Hj & Hid). unfold poll_wanted. rewrite Hj, Hid.
    by rewrite decide_True.
Qed.

(** X8: no handler and no render changes or drops an array that is in the
    store: along any sequence of events, and in the render that follows,
    every array keeps its contents (the clips in state and the clip arrays
    of the upload entries among them); new arrays are only added. *)
Theorem store_only_grows (rev : Revision) (base : string) (w : World)
    (es : list Event) :
  heap w ⊆ heap (run rev base w es)
  ∧ heap (run rev base w es) ⊆ (render rev base (run rev base w es)).2.
Proof. split; [apply run_heap | apply render_heap]. Qed.

(** X9: every request the component ever makes is one of four: the read of
    the upload list, the read of a job, the POST of the chosen file to the
    upload endpoint, and a POST without a file to the process endpoint.  In
    particular the video file goes nowhere but to [/api/upload]. *)
Theorem requests_are_known (rev : Revision) (base key1 key2 : string)
    (es : list Event) :
  Forall (known_request base)
    (sent (run rev base (mount rev base key1 key2) es)).
Proof.
  apply (run_invariant rev base (λ w, Forall (known_request base) (sent w))).
  - intros w e. apply step_sent.
  - destruct (mount_st rev base key1 key2) as (l & _ & _ & _ & ->).
    destruct rev; repeat constructor.
Qed.

(** ** Flows through the handlers *)

Section Flows.

Context (rev : Revision) (base : string).

Implicit Types (w : World) (e : Event) (es : list Event).

(** What the status-dependent effect adds to the pending promises. *)
Let refresh_call : list Call :=
  match rev with
  | WithUploads => [CallUploads]
  | Frontend => []
  end.

Lemma commit_sent_eq old w :
  sent (commit rev base old w)
  = sent w ++ (if decide (status old = status (st w)) then []
               else refresh rev base).
Proof.
  unfold commit, refresh.
  destruct rev; repeat case_decide; cbn [sent send with_timer];
    by rewrite ?app_nil_r.
Qed.

Lemma commit_awaiting_eq old w :
  awaiting (commit rev base old w)
  = awaiting w ++ (if decide (status old = status (st w)) then []
                   else refresh_call).
Proof.
  unfold commit, refresh_call.
  destruct rev; repeat case_decide; cbn [awaiting send with_timer option_list];
    by rewrite ?app_nil_r.
Qed.

Lemma process_url_setStatus v s path :
  process_url rev base (setStatus v s) path = process_url rev base s path.
Proof. done. Qed.

(** [startUpload] up to its first [await]. *)
Lemma step_start_magic w f :
  status (st w) = "idle" → file (st w) = Some f →
  let w' := step rev base w StartMagic in
  st w' = setStatus "uploading" (st w)
  ∧ heap w' = heap w
  ∧ timer w' = None
  ∧ sent w' = sent w ++ [POST (upload_url base) (Some f)] ++ refresh rev base
  ∧ awaiting w' = awaiting w ++ [CallUpload] ++ refresh_call.
Proof.
  intros Hidle Hf w'. subst w'. unfold step. cbn [handle].
  rewrite decide_True, Hf by done.
  rewrite commit_st, commit_heap, commit_timer, commit_sent_eq, commit_awaiting_eq.
  cbn [st heap sent awaiting timer send on_state status setStatus option_list].
  rewrite Hidle.
  rewrite (decide_False (P := _ ∧ _)) by (intros [H _]; discriminate H).
  rewrite decide_False by discriminate.
  rewrite <- !app_assoc. repeat split. by apply poll_wanted_done.
Qed.

(** [startUpload] after the upload has answered with the stored path. *)
Lemma step_upload_replied w p :
  CallUpload ∈ awaiting w → status (st w) = "uploading" →
  let w' := step rev base w (UploadReplied (inl p)) in
  st w' = setStatus "processing" (st w)
  ∧ heap w' = heap w
  ∧ timer w' = poll_wanted (setStatus "processing" (st w))
  ∧ sent w' = sent w ++ [POST (process_url rev base (st w) p) None]
                     ++ refresh rev base
  ∧ CallProcess ∈ awaiting w'.
Proof.
  intros Ha Hs w'. subst w'. unfold step. cbn [handle].
  rewrite decide_True by done.
  rewrite commit_st, commit_heap, commit_timer, commit_sent_eq, commit_awaiting_eq.
  cbn [st heap sent awaiting timer send on_state settle status setStatus
       option_list].
  rewrite Hs.
  rewrite (decide_False (P := _ ∧ _)) by (intros [H _]; discriminate H).
  rewrite decide_False by discriminate.
  rewrite <- !app_assoc. repeat split. set_solver.
Qed.

(** Either handler after the process request has answered. *)
Lemma step_process_replied w id :
  CallProcess ∈ awaiting w →
  timer w = poll_wanted (st w) →
  let w' := step rev base w (ProcessReplied (inl id)) in
  st w' = setJobId id (st w)
  ∧ heap w' = heap w
  ∧ timer w' = poll_wanted (setJobId id (st w))
  ∧ sent w' = sent w.
Proof.
  intros Ha Ht w'. subst w'. unfold step. cbn [handle].
  rewrite decide_True by done.
  rewrite commit_st, commit_heap, commit_timer, commit_sent_eq.
  cbn [st heap sent timer on_state settle status setJobId jobId].
  rewrite (decide_True (P := status (st w) = status (st w))) by done.
  rewrite app_nil_r.
  repeat split. case_decide as Hd; [| done].
  rewrite Ht. apply poll_wanted_ext; [done | by destruct Hd].
Qed.

(** Either handler's [catch]. *)
Lemma step_request_failed w e c msg :
  (e = UploadReplied (inr msg) ∧ c = CallUpload)
  ∨ (e = ProcessReplied (inr msg) ∧ c = CallProcess) →
  c ∈ awaiting w →
  timer w = poll_wanted (st w) →
  let w' := step rev base w e in
  st w' = setStatus "error" (setError (Some msg) (st w))
  ∧ heap w' = heap w
  ∧ timer w' = None
  ∧ sent w' = sent w ++ (if decide (status (st w) = "error") then []
                         else refresh rev base).
Proof.
  intros He Ha Ht w'. subst w'. unfold step.
  assert (handle rev base e w = on_state (fail_with msg) (settle c w)) as ->.
  { destruct He as [[-> ->] | [-> ->]]; cbn [handle]; by rewrite decide_True. }
  rewrite commit_st, commit_heap, commit_timer, commit_sent_eq.
  cbn [st heap sent timer on_state settle fail_with status setStatus setError
       jobId].
  repeat split.
  case_decide as Hd.
  - destruct Hd as [Hs _]. rewrite Ht. apply poll_wanted_done.
    rewrite Hs. discriminate.
  - by apply poll_wanted_done.
Qed.

(** While a job is processing and no interval is set, only the settling of
    a pending promise can change anything. *)
Lemma step_processing_idle w e :
  status (st w) = "processing" → timer w = None → is_reply e = false →
  step rev base w e = w.
Proof.
  intros Hs Ht He. unfold step.
  assert (handle rev base e w = w) as ->.
  { destruct e; try done; cbn [handle]; rewrite ?Hs, ?Ht;
      try rewrite decide_False by discriminate; try done;
      by repeat case_match. }
  by apply commit_unchanged.
Qed.

Lemma run_processing_idle w es :
  status (st w) = "processing" → timer w = None →
  Forall (λ e, is_reply e = false) es →
  run rev base w es = w.
Proof.
  intros Hs Ht Hes. induction Hes as [|e es He _ IH]; [done |].
  cbn [run foldl]. rewrite step_processing_idle by done. apply IH.
Qed.

End Flows.

(** X10: the upload flow composes: with a file chosen on the idle screen,
    "Start Magic", the upload answering with a path and the process request
    answering with a job id send, in this order, the file to the upload
    endpoint and a process request for exactly the path the upload
    returned (each followed by the refresh of the upload list in the second
    revision), and leave the component processing and polling that job
    every 2000 ms. *)
Theorem upload_then_process (rev : Revision) (base : string) (w : World)
    (f p id : string) :
  status (st w) = "idle" →
  file (st w) = Some f →
  JS.truthy id = true →
  let w3 := run rev base w
              [StartMagic; UploadReplied (inl p); ProcessReplied (inl (Some id))] in
  status (st w3) = "processing"
  ∧ jobId (st w3) = Some id
  ∧ timer w3 = Some {| polled_job := id; period := 2000 |}
  ∧ heap w3 = heap w
  ∧ sent w3 = sent w
              ++ [POST (upload_url base) (Some f)] ++ refresh rev base
              ++ [POST (process_url rev base (st w) p) None] ++ refresh rev base.
Proof.
  intros Hidle Hf Hid w3. subst w3. cbn [run foldl].
  destruct (step_start_magic rev base w f Hidle Hf) as (Hs1 & Hh1 & Ht1 & Hsent1 & Ha1).
  set (w1 := step rev base w StartMagic) in *.
  assert (CallUpload ∈ awaiting w1) as Hin1 by (rewrite Ha1; set_solver).
  assert (status (st w1) = "uploading") as Hst1 by by rewrite Hs1.
  destruct (step_upload_replied rev base w1 p Hin1 Hst1)
    as (Hs2 & Hh2 & Ht2 & Hsent2 & Hin2).
  set (w2 := step rev base w1 (UploadReplied (inl p))) in *.
  assert (timer w2 = poll_wanted (st w2)) as Hexact by by rewrite Ht2, Hs2.
  destruct (step_process_replied rev base w2 (Some id) Hin2 Hexact)
    as (Hs3 & Hh3 & Ht3 & Hsent3).
  set (w3 := step rev base w2 (ProcessReplied (inl (Some id)))) in *.
  rewrite Hs2, Hs1 in Ht3. rewrite Hs1 in Hsent2.
  rewrite Hs3, Hs2, Hs1, Ht3, Hh3, Hh2, Hh1, Hsent3, Hsent2, Hsent1.
  cbn [status jobId setJobId setStatus].
  split; [done |]. split; [done |].
  split.
  { unfold poll_wanted. cbn [status jobId setJobId setStatus].
    by rewrite decide_True, Hid by done. }
  split; [done |].
  by rewrite process_url_setStatus, <- !app_assoc.
Qed.

Lemma upload_then_process_witness :
  let w := run WithUploads sample_base browsing_world [FileChosen "talk 2.mp4"] in
  let w3 := run WithUploads sample_base w
              [StartMagic; UploadReplied (inl "clipper_output/uploads/talk 2.mp4");
               ProcessReplied (inl (Some "job-7"))] in
  status (st w3) = "processing"
  ∧ jobId (st w3) = Some "job-7"
  ∧ timer w3 = Some {| polled_job := "job-7"; period := 2000 |}
  ∧ heap w3 = heap w
  ∧ sent w3 = sent w
              ++ [POST (upload_url sample_base) (Some "talk 2.mp4")]
              ++ refresh WithUploads sample_base
              ++ [POST (process_url WithUploads sample_base (st w)
                          "clipper_output/uploads/talk 2.mp4") None]
              ++ refresh WithUploads sample_base.
Proof.
  intros w.
  apply (upload_then_process WithUploads sample_base w "talk 2.mp4"
           "clipper_output/uploads/talk 2.mp4" "job-7").
  - vm_compute. reflexivity.
  - vm_compute. reflexivity.
  - reflexivity.
Defined.

(** X11: when the upload or the process request fails, the component shows
    the error screen with the exception's message, no interval is left
    set, and nothing is sent but the refresh of the upload list that the
    change of status causes: in particular a failed upload starts no
    processing. *)
Theorem failed_request_shows_error (rev : Revision) (base : string)
    (w : World) (e : Event) (c : Call) (msg : string) :
  (e = UploadReplied (inr msg) ∧ c = CallUpload)
  ∨ (e = ProcessReplied (inr msg) ∧ c = CallProcess) →
  c ∈ awaiting w →
  timer w = poll_wanted (st w) →
  let w' := step rev base w e in
  status (st w') = "error"
  ∧ error (st w') = Some msg
  ∧ render rev base w' = (ErrorView (Some msg), heap w)
  ∧ timer w' = None
  ∧ jobId (st w') = jobId (st w)
  ∧ sent w' = sent w ++ (if decide (status (st w) = "error") then []
                         else refresh rev base).
Proof.
  intros He Ha Ht w'.
  destruct (step_request_failed rev base w e c msg He Ha Ht)
    as (Hs & Hh & Htm & Hsent).
  subst w'. unfold render. rewrite Hs, Hh. cbn [status error setStatus setError jobId].
  by repeat split.
Qed.

Lemma failed_request_shows_error_witness :
  let w := run WithUploads sample_base browsing_world [GenerateClips 0] in
  let w' := step WithUploads sample_base w (ProcessReplied (inr "Network Error")) in
  status (st w') = "error"
  ∧ error (st w') = Some "Network Error"
  ∧ render WithUploads sample_base w' = (ErrorView (Some "Network Error"), heap w)
  ∧ timer w' = None
  ∧ jobId (st w') = jobId (st w)
  ∧ sent w' = sent w ++ (if decide (status (st w) = "error") then []
                         else refresh WithUploads sample_base).
Proof.
  intros w.
  apply (failed_request_shows_error WithUploads sample_base w
           (ProcessReplied (inr "Network Error")) CallProcess "Network Error").
  - right. split; reflexivity.
  - vm_compute. set_solver.
  - vm_compute. reflexivity.
Defined.

(** X12: when the process request answers without a usable [job_id]
    (missing or empty), no interval is set and the component stays on the
    processing screen with the progress text it had: no click, file choice
    or tick changes anything from then on. *)
Theorem missing_job_id_leaves_processing (rev : Revision) (base : string)
    (w : World) (id : option string) (es : list Event) :
  CallProcess ∈ awaiting w →
  timer w = poll_wanted (st w) →
  status (st w) = "processing" →
  JS.falsy id = true →
  Forall (λ e, is_reply e = false) es →
  let w' := step rev base w (ProcessReplied (inl id)) in
  status (st w') = "processing"
  ∧ timer w' = None
  ∧ sent w' = sent w
  ∧ render rev base w'
    = (WorkingView (render_progress rev "processing" (progress (st w))), heap w)
  ∧ run rev base w' es = w'.
Proof.
  intros Ha Ht Hs Hid Hes w'.
  destruct (step_process_replied rev base w id Ha Ht) as (Hst & Hh & Htm & Hsent).
  subst w'.
  assert (timer (step rev base w (ProcessReplied (inl id))) = None) as Hnone.
  { rewrite Htm. unfold poll_wanted. cbn [jobId setJobId].
    destruct id as [id|]; [| done]. cbn [JS.falsy] in Hid.
    apply negb_true_iff in Hid. rewrite Hid. by case_decide. }
  assert (status (st (step rev base w (ProcessReplied (inl id)))) = "processing")
    as Hproc by by rewrite Hst.
  split; [done |]. split; [done |]. split; [done |].
  split; [| by apply run_processing_idle].
  unfold render. rewrite Hproc, Hh, Hst. cbn [progress setJobId].
  rewrite decide_False by discriminate.
  by rewrite decide_True by by right.
Qed.

Lemma missing_job_id_leaves_processing_witness :
  let w := run WithUploads sample_base browsing_world [GenerateClips 0] in
  let w' := step WithUploads sample_base w (ProcessReplied (inl None)) in
  status (st w') = "processing"
  ∧ timer w' = None
  ∧ sent w' = sent w
  ∧ render WithUploads sample_base w'
    = (WorkingView (render_progress WithUploads "processing" (progress (st w))),
       heap w)
  ∧ run WithUploads sample_base w'
      [PollTick None; TryAgain; ProcessNewVideo; GenerateClips 0; StartMagic]
    = w'.
Proof.
  intros w.
  apply (missing_job_id_leaves_processing WithUploads sample_base w None).
  - vm_compute. set_solver.
  - vm_compute. reflexivity.
  - vm_compute. reflexivity.
  - reflexivity.
  - repeat constructor.
Defined.

(** X13: a poll response with status ['done'] but no [clips] array puts
    [undefined] into [clips]; the gallery's [[...clips]] then throws and no
    screen is rendered. *)
Theorem done_without_clips_throws (rev : Revision) (base : string)
    (w : World) (ivl : Interval) (job : Job) :
  timer w = Some ivl →
  job_status job = "done" →
  job_clips job = None →
  let w' := step rev base w (PollTick (Some job)) in
  status (st w') = "done"
  ∧ clips (st w') = None
  ∧ (render rev base w').1 = Thrown.
Proof.
  intros Ht Hd Hc w'. subst w'.
  rewrite (step_tick_response rev base w ivl job Ht).
  set (w0 := send _ None w).
  destruct (on_job_done job w0 Hd) as (Hs & _ & _ & Hclips).
  rewrite Hc in Hclips. destruct Hclips as [Hnone _].
  unfold render. rewrite !commit_st, Hs, Hnone.
  split; [done |]. split; [done |].
  rewrite decide_False by discriminate.
  rewrite decide_False by (intros [H|H]; discriminate H).
  rewrite decide_False by discriminate.
  by rewrite decide_True.
Qed.

Lemma done_without_clips_throws_witness :
  let job := {| job_status := "done"; job_clips := None; job_error := None |} in
  let w' := step WithUploads sample_base polling_world (PollTick (Some job)) in
  status (st w') = "done"
  ∧ clips (st w') = None
  ∧ (render WithUploads sample_base w').1 = Thrown.
Proof.
  intros job.
  apply (done_without_clips_throws WithUploads sample_base polling_world
           {| polled_job := "job-1"; period := 2000 |} job).
  - vm_compute. reflexivity.
  - reflexivity.
  - reflexivity.
Defined.

Section PreviousJob.

Context (rev : Revision) (base : string).

Implicit Types (w : World) (job : Job).

Lemma commit_awaiting_incl old w c :
  c ∈ awaiting w → c ∈ awaiting (commit rev base old w).
Proof.
  intros Hc. unfold commit.
  repeat case_match; cbn [awaiting send with_timer]; rewrite ?elem_of_app; auto.
Qed.

Lemma on_job_awaiting job w : awaiting (on_job job w) = awaiting w.
Proof. unfold on_job. by repeat case_match. Qed.

(** A poll that reports the job done, on any world with an interval. *)
Lemma step_tick_done w ivl job :
  timer w = Some ivl → job_status job = "done" →
  let w' := step rev base w (PollTick (Some job)) in
  status (st w') = "done"
  ∧ jobId (st w') = jobId (st w)
  ∧ timer w' = None
  ∧ (∃ more, sent w' = sent w ++ GET (job_url base (polled_job ivl)) :: more)
  ∧ ∀ c, c ∈ awaiting w → c ∈ awaiting w'.
Proof.
  intros Ht Hd w'. subst w'. rewrite (step_tick_response rev base w ivl job Ht).
  set (w0 := send (GET (job_url base (polled_job ivl))) None w).
  destruct (on_job_done job w0 Hd) as (Hs & Htm & _ & _).
  rewrite commit_timer, !commit_st, Hs, Htm.
  split; [done |].
  split.
  { unfold on_job. rewrite decide_True by done.
    destruct (job_clips job); [| done]. by destruct (alloc _ _). }
  split.
  { case_decide; [done |]. apply poll_wanted_done. by rewrite Hs. }
  split.
  { destruct (commit_sent_prefix rev base (st w) (on_job job w0)) as [more ->].
    rewrite on_job_sent. subst w0. cbn [sent send].
    exists more. by rewrite <- app_assoc. }
  intros c Hc. apply commit_awaiting_incl. rewrite on_job_awaiting.
  subst w0. cbn [awaiting send option_list]. by rewrite app_nil_r.
Qed.

End PreviousJob.

(** X14: [jobId] is never reset.  Asking for clips of an upload after an
    earlier job therefore sets the interval for that earlier job until the
    process request answers; if it is polled first and reports ['done'],
    the gallery is shown again, and the job id that arrives afterwards is
    stored but never polled. *)
Theorem previous_job_polled_after_regenerate (base : string) (w : World)
    (i : nat) (u : Upload.t nat) (id id2 : string) (job : Job)
    (later : list (option Job)) :
  uploads (st w) !! i = Some u →
  status (st w) = "idle" →
  jobId (st w) = Some id →
  JS.truthy id = true →
  job_status job = "done" →
  let w1 := step WithUploads base w (GenerateClips i) in
  let w3 := run WithUploads base w1
              [PollTick (Some job); ProcessReplied (inl (Some id2))] in
  timer w1 = Some {| polled_job := id; period := 2000 |}
  ∧ (∃ more, sent w3 = sent w1 ++ GET (job_url base id) :: more)
  ∧ status (st w3) = "done"
  ∧ jobId (st w3) = Some id2
  ∧ timer w3 = None
  ∧ run WithUploads base w3 (PollTick <$> later) = w3.
Proof.
  intros Hu Hidle Hj Hid Hd w1 w3.
  assert (timer w1 = Some {| polled_job := id; period := 2000 |}
          ∧ CallProcess ∈ awaiting w1) as [Ht1 Ha1].
  { subst w1. rewrite (step_generate_clips base w i u Hu Hidle).
    cbn [timer awaiting with_timer send on_state option_list].
    split; [| set_solver].
    unfold poll_wanted. cbn [jobId status setStatus]. rewrite Hj, Hid.
    by rewrite decide_True. }
  split; [done |].
  subst w3. cbn [run foldl].
  destruct (step_tick_done WithUploads base w1 _ job Ht1 Hd)
    as (Hs2 & Hj2 & Ht2 & Hsent2 & Ha2).
  set (w2 := step WithUploads base w1 (PollTick (Some job))) in *.
  assert (timer w2 = poll_wanted (st w2)) as Hexact.
  { rewrite Ht2. symmetry. apply poll_wanted_done. by rewrite Hs2. }
  destruct (step_process_replied WithUploads base w2 (Some id2) (Ha2 _ Ha1) Hexact)
    as (Hs3 & _ & Ht3 & Hsent3).
  set (w3 := step WithUploads base w2 (ProcessReplied (inl (Some id2)))) in *.
  assert (timer w3 = None) as Hnone.
  { rewrite Ht3. apply poll_wanted_done. cbn [status setJobId]. by rewrite Hs2. }
  rewrite Hsent3, Hs3. cbn [status jobId setJobId]. cbn [polled_job] in Hsent2.
  split; [done |]. split; [done |]. split; [done |]. split; [done |].
  by apply run_ticks_idle.
Qed.

Lemma previous_job_polled_after_regenerate_witness :
  let w := run WithUploads sample_base gallery_world [ProcessNewVideo] in
  let w1 := step WithUploads sample_base w (GenerateClips 0) in
  let w3 := run WithUploads sample_base w1
              [PollTick (Some sample_done); ProcessReplied (inl (Some "job-2"))] in
  timer w1 = Some {| polled_job := "job-1"; period := 2000 |}
  ∧ (∃ more, sent w3 = sent w1 ++ GET (job_url sample_base "job-1") :: more)
  ∧ status (st w3) = "done"
  ∧ jobId (st w3) = Some "job-2"
  ∧ timer w3 = None
  ∧ run WithUploads sample_base w3 (PollTick <$> [Some sample_done; None]) = w3.
Proof.
  intros w.
  apply (previous_job_polled_after_regenerate sample_base w 0
           {| Upload.path := "clipper_output/uploads/talk 1.mp4";
              Upload.filename := "talk 1.mp4";
              Upload.created_at := 1730000000;
              Upload.thumbnail := Some "thumbs/talk.jpg";
              Upload.has_transcript := true;
              Upload.clips := Some 1%nat |}
           "job-1" "job-2" sample_done).
  - vm_compute. reflexivity.
  - vm_compute. reflexivity.
  - vm_compute. reflexivity.
  - reflexivity.
  - reflexivity.
Defined.

(** ** Percentages and widths at the edges *)

Section Edges.

Lemma sign_of_Z (z : Z) : JS.sign (JS.of_Z z) = (z ?= 0).
Proof.
  unfold JS.sign, JS.of_Z, Qcompare, inject_Z. cbn [Qnum Qden].
  by rewrite Z.mul_1_r.
Qed.

Lemma mul_of_Z (a b : Z) : JS.mul (JS.of_Z a) (JS.of_Z b) = JS.Fin (inject_Z a * inject_Z b).
Proof. done. Qed.

Lemma sign_product_100 (z : Z) :
  JS.sign (JS.Fin (inject_Z z * inject_Z 100)) = (z ?= 0).
Proof.
  unfold JS.sign, Qcompare, Qmult, inject_Z. cbn [Qnum Qden].
  rewrite Z.mul_1_r. change (0 * Z.pos (1 * 1)) with 0.
  destruct z; done.
Qed.

(** The rendering width before any assumption on the total. *)
Lemma bar_width_rendering_raw (c t : N) :
  bar_width ("rendering: " +:+ pretty c +:+ "/" +:+ pretty t)
  = WidthPct (JS.Math_max (JS.of_Z 5)
      (JS.mul (JS.div (JS.of_Z (Z.of_N c)) (JS.of_Z (Z.of_N t))) (JS.of_Z 100))).
Proof.
  unfold bar_width.
  change ("rendering: " +:+ pretty c +:+ "/" +:+ pretty t)
    with ("rendering" +:+ ": " +:+ (pretty c +:+ "/" +:+ pretty t)).
  destruct (measure_well_formed (Wire.Rendering c t) _ eq_refl)
    as (Hne & Hprep & Hinc).
  rewrite split_stage_detail by (done || (right; right; done)).
  cbn [lookup list_lookup default JS.falsy].
  destruct (pretty c +:+ "/" +:+ pretty t) as [|x d] eqn:Hd; [done |].
  cbn [JS.truthy negb]. rewrite decide_False by congruence.
  rewrite <- Hd. unfold id. rewrite split_fraction.
  cbn [lookup list_lookup JS.parseInt].
  rewrite !parseInt_pretty_N.
  by replace (JS.startsWith _ "rendering") with true by by destruct (pretty c).
Qed.

Lemma bar_width_percentage_stage (stage d : string) :
  stage = "uploading" ∨ stage = "transcribing" →
  d ≠ "" → d ≠ "preparing..." → JS.includes d ": " = false →
  bar_width (stage +:+ ": " +:+ d)
  = WidthStr (if JS.includes d "%" then d else d +:+ "%").
Proof.
  intros Hst Hne Hprep Hinc. unfold bar_width.
  rewrite split_stage_detail by (done || unfold measured_stage; tauto).
  cbn [lookup list_lookup default JS.falsy]. unfold id.
  destruct d as [|x d]; [done |].
  cbn [JS.truthy negb]. rewrite decide_False by congruence.
  replace (JS.startsWith _ "rendering") with false
    by by destruct Hst as [-> | ->].
  by destruct (JS.includes (String x d) "%").
Qed.

Lemma includes_suffix (s t : string) : JS.includes (s +:+ t) t = true.
Proof.
  induction s as [|c s IH].
  - rewrite app_empty_l. destruct t as [|c t]; [done |].
    cbn [JS.includes].
    by rewrite <- (app_empty_r (String c t)) at 2; rewrite prefix_app.
  - rewrite app_cons. cbn [JS.includes]. rewrite IH. apply orb_true_r.
Qed.

End Edges.

(** X15: while an upload runs, the percentage shown never goes back: for a
    fixed total, more bytes loaded give a percentage at least as high (also
    when the browser reports more bytes than the total). *)
Theorem upload_percentage_monotone (loaded1 loaded2 total : Z) :
  0 ≤ loaded1 ≤ loaded2 → 0 < total →
  ∃ p1 p2 : Z,
    upload_progress (JS.of_Z loaded1) (JS.of_Z total)
    = "uploading: " +:+ pretty p1 +:+ "%"
    ∧ upload_progress (JS.of_Z loaded2) (JS.of_Z total)
      = "uploading: " +:+ pretty p2 +:+ "%"
    ∧ 0 ≤ p1 ≤ p2.
Proof.
  intros Hl Ht.
  exists ((200 * loaded1 + total) `div` (2 * total)),
         ((200 * loaded2 + total) `div` (2 * total)).
  unfold upload_progress. rewrite !Math_round_quotient by done.
  split; [done |]. split; [done |]. split.
  - apply Z.div_pos; lia.
  - apply Z.div_le_mono; lia.
Qed.

Lemma upload_percentage_monotone_witness :
  ∃ p1 p2 : Z,
    upload_progress (JS.of_Z 10) (JS.of_Z 300)
    = "uploading: " +:+ pretty p1 +:+ "%"
    ∧ upload_progress (JS.of_Z 200) (JS.of_Z 300)
      = "uploading: " +:+ pretty p2 +:+ "%"
    ∧ 0 ≤ p1 ≤ p2.
Proof. apply (upload_percentage_monotone 10 200 300); lia. Defined.

(** X16: the division is not guarded: a progress event with total 0 gives
    ['uploading: NaN%'] when nothing is loaded and ['uploading: Infinity%']
    otherwise, and an event without a total gives ['uploading: NaN%']. *)
Theorem upload_progress_without_total (loaded : Z) :
  upload_progress (JS.of_Z loaded) (JS.of_Z 0)
  = match loaded ?= 0 with
    | Eq => "uploading: NaN%"
    | Gt => "uploading: Infinity%"
    | Lt => "uploading: -Infinity%"
    end
  ∧ upload_progress (JS.of_Z loaded) JS.NaN = "uploading: NaN%".
Proof.
  split; [| reflexivity].
  unfold upload_progress. rewrite mul_of_Z.
  unfold JS.div. change (JS.sign (JS.of_Z 0)) with Eq. cbn [JS.of_Z].
  rewrite sign_product_100. by destruct (loaded ?= 0).
Qed.

(** X17: the rendering width is not guarded against a total of 0 either:
    for ['rendering: c/0'] the style is ['NaN%'] when [c] is 0 and
    ['Infinity%'] otherwise. *)
Theorem bar_width_zero_total_rendering (c : N) :
  width_string (bar_width ("rendering: " +:+ pretty c +:+ "/" +:+ "0"))
  = Some (if decide (c = 0%N) then "NaN%" else "Infinity%").
Proof.
  change "0" with (pretty 0%N). rewrite bar_width_rendering_raw.
  unfold JS.div. change (JS.sign (JS.of_Z (Z.of_N 0))) with Eq. cbn [JS.of_Z].
  change (JS.sign (JS.Fin (inject_Z (Z.of_N c)))) with (JS.sign (JS.of_Z (Z.of_N c))).
  rewrite sign_of_Z.
  case_decide as Hc.
  - subst c. reflexivity.
  - replace (Z.of_N c ?= 0) with Gt by (symmetry; apply Z.compare_gt_iff; lia).
    reflexivity.
Qed.

(** X18: the rendering width has a floor but no ceiling: with a total of at
    least 1 it is at most 100% exactly when the completed count does not
    exceed the total, and it is exactly ['100%'] when all clips are
    rendered. *)
Theorem bar_width_full_at_completion (c t : N) :
  (1 ≤ t)%N →
  (∃ q : Q,
     bar_width ("rendering: " +:+ pretty c +:+ "/" +:+ pretty t)
     = WidthPct (JS.Fin q)
     ∧ ((q <= 100)%Q ↔ (c ≤ t)%N))
  ∧ width_string (bar_width ("rendering: " +:+ pretty t +:+ "/" +:+ pretty t))
    = Some "100%".
Proof.
  intros Ht.
  assert (∀ c', ∃ tp : positive, t = Npos tp
            ∧ (inject_Z (Z.of_N c') / inject_Z (Z.of_N t) * inject_Z 100
               == (Z.of_N c' * 100) # tp)%Q) as Hfrac.
  { intros c'. destruct t as [|tp]; [lia |]. exists tp. split; [done |].
    unfold Qeq, Qdiv, Qmult, Qinv, inject_Z. cbn. lia. }
  split.
  - rewrite bar_width_rendering by done.
    destruct (Hfrac c) as (tp & -> & Hx).
    destruct (Math_max_5
                (inject_Z (Z.of_N c) / inject_Z (Z.of_N (N.pos tp)) * inject_Z 100))
      as (q & -> & Hq & _).
    exists q. split; [done |]. rewrite Hq, Hx.
    rewrite Q.max_lub_iff.
    assert ((Z.of_N c * 100 # tp <= 100)%Q ↔ (c ≤ N.pos tp)%N) as ->.
    { unfold Qle. cbn [Qnum Qden]. lia. }
    split; [tauto |]. intros H. split; [| done]. by unfold Qle.
  - rewrite bar_width_rendering by done.
    destruct (Hfrac t) as (tp & Htp & Hx).
    unfold JS.Math_max, JS.of_Z.
    assert (inject_Z (Z.of_N t) / inject_Z (Z.of_N t) * inject_Z 100 == 100)%Q as H100.
    { rewrite Hx, Htp. unfold Qeq. cbn. lia. }
    destruct (Qle_bool _ _) eqn:Hle.
    + unfold width_string, JS.to_string.
      assert (Qfloor (inject_Z (Z.of_N t) / inject_Z (Z.of_N t) * inject_Z 100) = 100)
        as Hfl.
      { rewrite (Qfloor_comp _ _ H100). reflexivity. }
      rewrite Hfl.
      replace (Qeq_bool _ _) with true; [reflexivity |].
      symmetry. apply Qeq_bool_iff. by rewrite H100.
    + exfalso. assert (Qle_bool (inject_Z 5)
                (inject_Z (Z.of_N t) / inject_Z (Z.of_N t) * inject_Z 100) = true);
        [| congruence].
      apply Qle_bool_iff. rewrite H100. by unfold Qle.
Qed.

Lemma bar_width_full_at_completion_witness :
  (∃ q : Q,
     bar_width ("rendering: " +:+ pretty 3%N +:+ "/" +:+ pretty 4%N)
     = WidthPct (JS.Fin q)
     ∧ ((q <= 100)%Q ↔ (3 ≤ 4)%N))
  ∧ width_string (bar_width ("rendering: " +:+ pretty 4%N +:+ "/" +:+ pretty 4%N))
    = Some "100%".
Proof. apply (bar_width_full_at_completion 3 4). lia. Defined.

Lemma bar_width_is_percentage_text (stage : string) (n : N) :
  stage = "uploading" ∨ stage = "transcribing" →
  bar_width (stage +:+ ": " +:+ pretty n +:+ "%") = WidthStr (pretty n +:+ "%")
  ∧ bar_width (stage +:+ ": " +:+ pretty n) = WidthStr (pretty n +:+ "%").
Proof.
  intros Hst.
  destruct (measure_well_formed (Wire.Uploading n) _ eq_refl)
    as (Hne & Hprep & Hinc).
  split.
  - rewrite bar_width_percentage_stage by done.
    by rewrite includes_suffix.
  - destruct (pretty_N_head n) as (x & d & Hx & Hdig).
    rewrite bar_width_percentage_stage.
    + replace (JS.includes (pretty n) "%") with false; [done |].
      symmetry. apply includes_no_head. by apply pretty_N_no_char.
    + done.
    + by rewrite Hx.
    + rewrite Hx. intros [= -> _]. discriminate Hdig.
    + apply includes_no_head. by apply pretty_N_no_char.
Qed.

(** X19: for the uploading and transcribing stages the bar's width is the
    percentage of the progress text itself; a number sent without the
    percent sign gets one appended. *)
Theorem bar_width_is_the_percentage (stage : string) (n : N) :
  stage = "uploading" ∨ stage = "transcribing" →
  bar_width (stage +:+ ": " +:+ pretty n +:+ "%") = WidthStr (pretty n +:+ "%")
  ∧ bar_width (stage +:+ ": " +:+ pretty n) = WidthStr (pretty n +:+ "%").
Proof. apply bar_width_is_percentage_text. Qed.

Lemma bar_width_is_the_percentage_witness :
  bar_width ("transcribing" +:+ ": " +:+ pretty 40%N +:+ "%")
  = WidthStr (pretty 40%N +:+ "%")
  ∧ bar_width ("transcribing" +:+ ": " +:+ pretty 40%N)
    = WidthStr (pretty 40%N +:+ "%").
Proof. apply (bar_width_is_the_percentage "transcribing" 40). by right. Defined.

(** ** The gallery's cards *)

Section Cards.

Variables (rev : Revision) (base : string).

Lemma render_done_view (w : World) (l : nat) (cs : list Clip.t) :
  status (st w) = "done" →
  clips (st w) = Some l →
  heap w !! l = Some cs →
  ∃ h', render rev base w
        = (DoneView (imap (card base) (JS.sort by_score cs)), h').
Proof.
  intros Hst Hclips Hl.
  destruct (render_gallery_spec base (heap w) l cs Hl) as (h' & Hrender & _).
  exists h'. unfold render. rewrite Hst, Hclips, Hrender.
  by rewrite decide_False, decide_False, decide_False, decide_True
    by (done || intros [?|?]; done).
Qed.

End Cards.



(** X21: clips of equal score (a missing score counting as 0) appear in the
    gallery in the order they have in the stored list. *)
Theorem gallery_ties_keep_stored_order (rev : Revision) (base : string)
    (w : World) (l : nat) (cs : list Clip.t) :
  status (st w) = "done" →
  clips (st w) = Some l →
  heap w !! l = Some cs →
  ∃ (shown : list Clip.t) (h' : store),
    render rev base w = (DoneView (imap (card base) shown), h')
    ∧ ∀ k : Q,
        filter (λ c, Qeq_bool (score_or_zero c) k) shown
        = filter (λ c, Qeq_bool (score_or_zero c) k) cs.
Proof.
  intros Hst Hclips Hl.
  destruct (render_done_view rev base w l cs Hst Hclips Hl) as (h' & Hr).
  exists (JS.sort by_score cs), h'. split; [done |].
  intros k. apply by_score_stable.
Qed.

Lemma gallery_ties_keep_stored_order_witness :
  ∃ (shown : list Clip.t) (h' : store),
    render WithUploads sample_base gallery_world
    = (DoneView (imap (card sample_base) shown), h')
    ∧ ∀ k : Q,
        filter (λ c, Qeq_bool (score_or_zero c) k) shown
        = filter (λ c, Qeq_bool (score_or_zero c) k) sample_clips.
Proof.
  apply (gallery_ties_keep_stored_order WithUploads sample_base gallery_world
           (default 0%nat (clips (st gallery_world))) sample_clips).
  - vm_compute. reflexivity.
  - vm_compute. reflexivity.
  - vm_compute. reflexivity.
Defined.

(** ** The encoded path of the process request *)

Section Encoding.

Lemma below_16 (d : N) :
  (d < 16)%N →
  (d = 0 ∨ d = 1 ∨ d = 2 ∨ d = 3 ∨ d = 4 ∨ d = 5 ∨ d = 6 ∨ d = 7 ∨ d = 8
   ∨ d = 9 ∨ d = 10 ∨ d = 11 ∨ d = 12 ∨ d = 13 ∨ d = 14 ∨ d = 15)%N.
Proof. lia. Qed.

Lemma hex_char_unreserved (d : N) :
  (d < 16)%N → JS.unreserved (JS.hex_char d) = true.
Proof.
  intros Hd%below_16. decompose [or] Hd; subst d; reflexivity.
Qed.

Lemma hex_char_value (d : N) :
  (d < 16)%N → JS.digit_val (JS.hex_char d) = Some d.
Proof.
  intros Hd%below_16. decompose [or] Hd; subst d; reflexivity.
Qed.

Lemma high_nibble (c : ascii) : (N_of_ascii c / 16 < 16)%N.
Proof.
  pose proof (N_ascii_bounded c).
  apply N.Div0.div_lt_upper_bound. lia.
Qed.

Lemma low_nibble (c : ascii) : (N_of_ascii c mod 16 < 16)%N.
Proof. by apply N.mod_lt. Qed.

Lemma nibbles_inj (c1 c2 : ascii) :
  JS.hex_char (N_of_ascii c1 / 16) = JS.hex_char (N_of_ascii c2 / 16) →
  JS.hex_char (N_of_ascii c1 mod 16) = JS.hex_char (N_of_ascii c2 mod 16) →
  c1 = c2.
Proof.
  intros Hh Hl.
  assert (N_of_ascii c1 / 16 = N_of_ascii c2 / 16)%N as Hq.
  { apply (inj Some).
    rewrite <- (hex_char_value _ (high_nibble c1)), Hh.
    apply hex_char_value, high_nibble. }
  assert (N_of_ascii c1 mod 16 = N_of_ascii c2 mod 16)%N as Hr.
  { apply (inj Some).
    rewrite <- (hex_char_value _ (low_nibble c1)), Hl.
    apply hex_char_value, low_nibble. }
  rewrite <- (ascii_N_embedding c1), <- (ascii_N_embedding c2).
  f_equal.
  rewrite (N.div_mod (N_of_ascii c1) 16), (N.div_mod (N_of_ascii c2) 16) by done.
  by rewrite Hq, Hr.
Qed.

Lemma unreserved_uri_safe (c : ascii) : JS.unreserved c = true → uri_safe c = true.
Proof. unfold uri_safe. by intros ->. Qed.

Lemma encodeURIComponent_safe (s : string) :
  all_chars uri_safe (JS.encodeURIComponent s) = true.
Proof.
  induction s as [|c s IH]; [done |].
  cbn [JS.encodeURIComponent].
  destruct (JS.unreserved c) eqn:Hc; cbn [all_chars].
  - by rewrite unreserved_uri_safe, IH.
  - rewrite IH.
    rewrite (unreserved_uri_safe _ (hex_char_unreserved _ (high_nibble c))).
    by rewrite (unreserved_uri_safe _ (hex_char_unreserved _ (low_nibble c))).
Qed.

Lemma length_app (s t : string) :
  String.length (s +:+ t) = (String.length s + String.length t)%nat.
Proof. induction s as [|c s IH]; [done |]. rewrite app_cons. cbn. by rewrite IH. Qed.

(** A common suffix can be cancelled. *)
Lemma app_inv_tail (s1 s2 t : string) : s1 +:+ t = s2 +:+ t → s1 = s2.
Proof.
  revert s2. induction s1 as [|c1 s1 IH]; intros [|c2 s2] H.
  - done.
  - apply (f_equal String.length) in H.
    rewrite app_empty_l, app_cons in H. cbn in H. rewrite length_app in H. lia.
  - apply (f_equal String.length) in H.
    rewrite app_empty_l, app_cons in H. cbn in H. rewrite length_app in H. lia.
  - rewrite !app_cons in H. injection H as -> H. by rewrite (IH _ H).
Qed.

Lemma encodeURIComponent_inj (p1 p2 : string) :
  JS.encodeURIComponent p1 = JS.encodeURIComponent p2 → p1 = p2.
Proof.
  revert p2. induction p1 as [|c1 p1 IH]; intros [|c2 p2];
    cbn [JS.encodeURIComponent].
  - done.
  - by destruct (JS.unreserved c2).
  - by destruct (JS.unreserved c1).
  - destruct (JS.unreserved c1) eqn:H1, (JS.unreserved c2) eqn:H2.
    + intros [= -> Hs]. by rewrite (IH _ Hs).
    + intros [= -> _]. discriminate H1.
    + intros [= <- _]. discriminate H2.
    + intros [= Hh Hl Hs]. by rewrite (nibbles_inj _ _ Hh Hl), (IH _ Hs).
Qed.

End Encoding.

(** X22: the path put into the process URL is percent-encoded: the encoded
    text consists of unreserved characters and ['%'] only, so it contains
    none of the delimiters ['&'], ['='], ['?'], ['#'], ['/'], space or ['+'],
    and a file name cannot add or end a query parameter. *)
Theorem encoded_path_has_no_delimiter (path : string) :
  all_chars uri_safe (JS.encodeURIComponent path) = true
  ∧ Forall (λ c, all_chars (differs c) (JS.encodeURIComponent path) = true)
      url_delimiters.
Proof.
  split; [apply encodeURIComponent_safe |].
  assert (∀ c0, uri_safe c0 = false →
            all_chars (differs c0) (JS.encodeURIComponent path) = true) as Hout.
  { intros c0 Hc0. eapply all_chars_impl; [| apply encodeURIComponent_safe].
    intros c Hc. unfold differs.
    destruct (Ascii.eqb_spec c c0); [congruence | done]. }
  unfold url_delimiters.
  repeat (constructor; [by apply Hout |]). constructor.
Qed.

(** X23: encoding loses nothing: two paths with the same encoded text are
    the same path, and so two paths with the same process URL (for the same
    base and keys) are the same path: distinct uploads are never confused. *)
Theorem encoded_path_determines_path (rev : Revision) (base : string)
    (s : State) (p1 p2 : string) :
  JS.encodeURIComponent p1 = JS.encodeURIComponent p2
  ∨ process_url rev base s p1 = process_url rev base s p2 →
  p1 = p2.
Proof.
  intros [H | H]; [by apply encodeURIComponent_inj |].
  apply encodeURIComponent_inj. unfold process_url in H.
  apply (inj (String.app base)), (inj (String.app "/api/process?path=")) in H.
  by apply app_inv_tail in H.
Qed.

Lemma encoded_path_determines_path_witness :
  JS.encodeURIComponent "uploads/talk 1.mp4" = "uploads%2Ftalk%201.mp4"
  ∧ "uploads/talk 1.mp4" = "uploads/talk 1.mp4".
Proof.
  split; [reflexivity |].
  apply (encoded_path_determines_path WithUploads sample_base
           (st browsing_world) "uploads/talk 1.mp4" "uploads/talk 1.mp4").
  left. reflexivity.
Defined.

(** ** The list of uploads *)

Section UploadList.

Lemma held_as_weaken (h h' : store) u u' :
  h ⊆ h' → is_Some (Upload.clips u) ∨ Upload.clips u' = None →
  held_as h u u' → held_as h' u u'.
Proof.
  intros Hsub Hsome (? & ? & ? & ? & ? & Hc). repeat split; try done.
  destruct (Upload.clips u') as [l|]; [| done]. cbn in *.
  destruct Hsome as [[a Ha] | ?]; [| done].
  rewrite Ha in Hc |- *. by eapply lookup_weaken.
Qed.

Lemma intern_held (data : list (Upload.t (list Clip.t))) (h : store) :
  Forall2 (held_as (intern data h).2) data (intern data h).1.
Proof.
  revert h. induction data as [|u data IH]; intros h; [constructor |].
  cbn [intern].
  destruct (Upload.clips u) as [a|] eqn:Hu.
  - pose proof (alloc_lookup a h) as Ha.
    destruct (alloc a h) as [l h1]. cbn [fst snd] in Ha.
    pose proof (IH h1) as Htl. pose proof (intern_subseteq data h1) as Hsub.
    destruct (intern data h1) as [us h2]. cbn [fst snd] in *.
    constructor; [| done].
    repeat split; try done. cbn. rewrite Hu. by eapply lookup_weaken.
  - pose proof (IH h) as Htl.
    destruct (intern data h) as [us h2]. cbn [fst snd] in *.
    constructor; [| done].
    repeat split; try done.
Qed.

End UploadList.

(** X24: when the answer to [GET /api/uploads] arrives, an array replaces
    the list in state entry for entry and in order, each entry keeping its
    fields and leading to the clips array of the answer; anything else (a
    failed request, or data that is not an array) leaves state and store
    as they were.  Either way the status, the clips on screen and the
    interval are untouched, no array of the store changes, and no request
    is sent in return. *)
Theorem uploads_reply_replaces_list (rev : Revision) (base : string) (w : World)
    (data : option (list (Upload.t (list Clip.t)))) :
  CallUploads ∈ awaiting w →
  let w' := step rev base w (UploadsReplied data) in
  status (st w') = status (st w)
  ∧ clips (st w') = clips (st w)
  ∧ timer w' = timer w
  ∧ sent w' = sent w
  ∧ heap w ⊆ heap w'
  ∧ match data with
    | Some arr => Forall2 (held_as (heap w')) arr (uploads (st w'))
    | None => st w' = st w ∧ heap w' = heap w
    end.
Proof.
  intros Hin w'. subst w'. unfold step.
  assert (status (st (handle rev base (UploadsReplied data) w)) = status (st w)
          ∧ jobId (st (handle rev base (UploadsReplied data) w)) = jobId (st w))
    as [Hs Hj].
  { cbn [handle]. rewrite decide_True by done.
    destruct data as [arr|]; [| done].
    by destruct (intern arr _). }
  rewrite commit_unchanged by done.
  cbn [handle]. rewrite decide_True by done.
  destruct data as [arr|].
  - pose proof (intern_held arr (heap (settle CallUploads w))) as Hheld.
    pose proof (intern_subseteq arr (heap (settle CallUploads w))) as Hsub.
    destruct (intern arr _) as [us h]. cbn [fst snd] in *.
    by repeat split.
  - by repeat split.
Qed.

Lemma uploads_reply_replaces_list_witness :
  let w := mount WithUploads sample_base "AIza-example" "" in
  let w' := step WithUploads sample_base w (UploadsReplied (Some [sample_upload])) in
  status (st w') = status (st w)
  ∧ clips (st w') = clips (st w)
  ∧ timer w' = timer w
  ∧ sent w' = sent w
  ∧ heap w ⊆ heap w'
  ∧ Forall2 (held_as (heap w')) [sample_upload] (uploads (st w')).
Proof.
  intros w.
  apply (uploads_reply_replaces_list WithUploads sample_base w
           (Some [sample_upload])).
  vm_compute. apply list_elem_of_here.
Defined.

(** ** Leaving the error and the done screen; the upload percentage on
    screen *)

Section Resets.

Context (rev : Revision) (base : string).

Lemma cached_clips_alloc_empty (h : store) (u : Upload.t nat) :
  cached_clips (alloc [] h).2 u = cached_clips h u.
Proof.
  unfold cached_clips. destruct (Upload.clips u) as [l|]; [| done].
  cbn [mbind option_bind].
  destruct (decide (l = (alloc [] h).1)) as [-> | Hl].
  - by rewrite alloc_lookup, alloc_fresh.
  - by rewrite alloc_other.
Qed.

Lemma upload_row_alloc_empty (h : store) (u : Upload.t nat) :
  upload_row base (alloc [] h).2 u = upload_row base h u.
Proof. unfold upload_row. by rewrite cached_clips_alloc_empty. Qed.



End Resets.

(** X25: "Try Again" on the error screen and "Process New Video" on the done
    screen both lead to the idle screen with no file chosen and the same
    rows of uploads; no interval is left, the only request is the refresh of
    the upload list, and "Process New Video" puts a new empty array into
    [clips] without touching an array of the store. *)
Theorem reset_shows_idle_screen (rev : Revision) (base : string) (w : World)
    (e : Event) :
  (e = TryAgain ∧ status (st w) = "error")
  ∨ (e = ProcessNewVideo ∧ status (st w) = "done") →
  let w' := step rev base w e in
  render rev base w'
  = (IdleView None
       match rev with
       | WithUploads => upload_row base (heap w) <$> uploads (st w)
       | Frontend => []
       end,
     heap w')
  ∧ timer w' = None
  ∧ sent w' = sent w ++ refresh rev base
  ∧ heap w ⊆ heap w'
  ∧ (e = ProcessNewVideo →
     ∃ l, clips (st w') = Some l ∧ heap w' !! l = Some [] ∧ heap w !! l = None).
Proof.
  intros He w'. subst w'. unfold step.
  set (w1 := handle rev base e w).
  assert (status (st w1) = "idle" ∧ file (st w1) = None
          ∧ uploads (st w1) = uploads (st w) ∧ sent w1 = sent w
          ∧ (heap w1 = heap w ∨ (e = ProcessNewVideo ∧ heap w1 = (alloc [] (heap w)).2))
          ∧ (e = ProcessNewVideo →
             clips (st w1) = Some (alloc [] (heap w)).1
             ∧ heap w1 = (alloc [] (heap w)).2))
    as (Hs & Hf & Hu & Hsent & Hh & Hnew).
  { subst w1. destruct He as [[-> Hst] | [-> Hst]]; cbn [handle];
      rewrite decide_True by done.
    - repeat split; try done. by left.
    - destruct (alloc [] (heap w)) as [l h] eqn:Ha. cbn [fst snd].
      repeat split; try done. by right. }
  assert (status (st w) ≠ status (st w1)) as Hne.
  { rewrite Hs. destruct He as [[_ ->] | [_ ->]]; discriminate. }
  split; [| split; [| split; [| split]]].
  - unfold render. rewrite commit_st, commit_heap, Hs, Hf, Hu.
    rewrite decide_True by done. f_equal.
    destruct rev; [done |].
    destruct Hh as [-> | [_ ->]]; [done |].
    f_equal. apply list_fmap_ext. intros i u _. apply upload_row_alloc_empty.
  - rewrite commit_timer.
    rewrite (decide_False (P := _ ∧ _)) by (intros [? _]; done).
    apply poll_wanted_done. by rewrite Hs.
  - rewrite commit_sent_eq, Hsent. by rewrite decide_False.
  - rewrite commit_heap.
    destruct Hh as [-> | [_ ->]]; [done | apply alloc_subseteq].
  - intros Hp. destruct (Hnew Hp) as [Hc Hh'].
    exists (alloc [] (heap w)).1.
    rewrite commit_st, commit_heap, Hc, Hh'.
    split; [done |]. split; [apply alloc_lookup | apply alloc_fresh].
Qed.

Lemma reset_shows_idle_screen_witness :
  let w := gallery_world in
  let w' := step WithUploads sample_base w ProcessNewVideo in
  render WithUploads sample_base w'
  = (IdleView None (upload_row sample_base (heap w) <$> uploads (st w)), heap w')
  ∧ timer w' = None
  ∧ sent w' = sent w ++ refresh WithUploads sample_base
  ∧ heap w ⊆ heap w'
  ∧ (ProcessNewVideo = ProcessNewVideo →
     ∃ l, clips (st w') = Some l ∧ heap w' !! l = Some [] ∧ heap w !! l = None).
Proof.
  intros w.
  apply (reset_shows_idle_screen WithUploads sample_base w ProcessNewVideo).
  right. split; [reflexivity | vm_compute; reflexivity].
Defined.


